(** * The log-transport data model ([model.go]) and its pipeline contract

    The first part embeds the Go package [model]: its constants and its
    struct types, field by field.  Go's fixed-width integers are carried
    as [Z] with the wrap-around written out ([byte_wrap], [uint64_wrap]);
    [string] is [string]; a [map[string]T] is a [gmap string T]; a
    pointer that may be [nil] is an [option]; [interface{}] is the
    closed variant [Any].

    The second part models the delivery pipeline that consumes these
    types.  The package itself holds no pipeline code, so each pipeline
    component is a definition written from the design document and is
    marked as such. *)

From stdpp Require Import gmap strings list fin_maps sorting.
From Stdlib Require Import ZArith Lia.

Local Open Scope Z_scope.

(** ** Go scalar types *)

Definition byte_wrap (z : Z) : Z := z mod 256.
Definition uint64_wrap (z : Z) : Z := z mod 2 ^ 64.

(** [x++] on a [byte] and on a [uint64]. *)
Definition byte_incr (x : Z) : Z := byte_wrap (x + 1).
Definition uint64_incr (x : Z) : Z := uint64_wrap (x + 1).

(** [interface{}] values that the model stores but never inspects. *)
Inductive Any : Type :=
| AnyNil
| AnyBool (b : bool)
| AnyInt (z : Z)
| AnyString (s : string).

(** ** Constants (model.go, lines 21-50) *)

Definition RetryCount : Z := 3.
Definition LevelError : Z := 0.
Definition LevelWarn : Z := 1.
Definition LevelInfo : Z := 2.
Definition LevelDebug : Z := 3.
Definition TransportPackageTypeLog : Z := 0.
Definition TransportPackageTypeHiPriLog : Z := 1.
Definition TransportPackageTypeHealhcheck : Z := 2.
Definition LogTypeLog : Z := 0.
Definition LogTypeAudit : Z := 1.
Definition ContextTypeID : string := "t".
Definition CorrelationIDField : string := "CorrelationID".
Definition DeliveryMethodClientSpecified : Z := 0.
Definition DeliveryMethodRoundRobin : Z := 1.

(** ** Struct types *)

Module CorrelationData.
Record t : Type := mk {
  CorrelationID : string;
  Name : string;
  Custom : gmap string Any
}.
End CorrelationData.

Module LogData.
Record t : Type := mk {
  Timestamp : Z;
  Level : Z;
  Type_ : Z;
  Weight : Z;
  Message : string;
  Error : option string;
  ContextMap : list Any;
  CorrelationData : option CorrelationData.t;
  ContextMaps : gmap string (list string)
}.
End LogData.

Module LogGroup.
Record t : Type := mk {
  CorrelationData : option CorrelationData.t;
  Logs : list LogData.t
}.
End LogGroup.

(** What the [Data interface{}] field of a package refers to. *)
Inductive PackageData : Type :=
| DataNil
| DataLogGroup (g : LogGroup.t)
| DataValue (a : Any).

Module TransportPackage.
Record t : Type := mk {
  ID : Z;
  Type_ : Z;
  Data : PackageData;
  Payload : list Z;
  RetryCount : Z
}.

(** [p.RetryCount++] *)
Definition incrRetryCount (p : t) : t :=
  mk (ID p) (Type_ p) (Data p) (Payload p) (byte_incr (RetryCount p)).
End TransportPackage.

Module ClientConfig.
Record t : Type := mk {
  Enabled : bool;
  AppName : string;
  Level : Z;
  Endpoint : string;
  NumberOfConnections : Z;
  NumberOfHiPriConnections : Z;
  NumberOfBackupConnections : Z;
  NumberOfHiPriBackupConnections : Z;
  ConnectionResetInterval : Z;
  ChannelSize : Z;
  OverflowChannelSize : Z;
  OverflowChannelLoggingLevel : Z;
  HipriLoggingLevel : Z;
  HipriChannelSize : Z;
  TargetMessageBatchSize : Z;
  SendBatchLogsInterval : Z;
  CommonLabels : gmap string string;
  ServerConfigGroup : string;
  ServerConfigName : string;
  HealthCheckInterval : Z;
  HealthCheckFailureThreshold : Z;
  RequestTrackingTimout : Z;
  ConnectionShutdownTimout : Z;
  ProjectID : string;
  CredentialsFilePath : string
}.
End ClientConfig.

Module ServerLoggingConfig.
Record t : Type := mk {
  Group : string;
  Name : string;
  ProjectID : string;
  CredentialsFilePath : string;
  Level : Z;
  NumberOfWorkers : Z;
  MessagesChannelSize : Z;
  ShutdownTimeout : Z
}.
End ServerLoggingConfig.

Module ServerLoggingConfigs.
Record t : Type := mk {
  Enabled : bool;
  DefaultConfigGroupName : string;
  DefaultConfigName : string;
  DeliveryMethod : Z;
  Configs : list ServerLoggingConfig.t
}.
End ServerLoggingConfigs.

Module ServerConfigs.
Record t : Type := mk {
  ServicePort : Z;
  ShutdownTimeout : string;
  ReadTimeout : string;
  WriteTimeout : string;
  Logging : option ServerLoggingConfigs.t
}.
End ServerConfigs.

Module OpenConnectionDataRequest.
Record t : Type := mk {
  ClientID : string;
  IsHiPri : bool;
  ClientConfigs : option ClientConfig.t;
  ContextMaps : gmap string (list string)
}.
End OpenConnectionDataRequest.

Module OpenConnectionDataResponse.
Record t : Type := mk {
  ConnectionID : string;
  StreamingEndpoint : string
}.
End OpenConnectionDataResponse.

Module GetConnectionResponse.
Record t : Type := mk {
  IsActive : bool;
  ClientID : string;
  ConnectionID : string;
  StreamingEndpoint : string;
  IsHiPri : bool;
  ClientConfigs : option ClientConfig.t;
  LastReceivedTime : string
}.
End GetConnectionResponse.

Module PostConnectionRequest.
Record t : Type := mk {
  IsActive : bool;
  ClientConfigs : option ClientConfig.t
}.
End PostConnectionRequest.

Module PostConnectionResponse.
Record t : Type := mk {
  IsActive : bool;
  ClientConfigs : option ClientConfig.t
}.
End PostConnectionResponse.

(** ** Struct declarations as data

    The field list of a struct, in declaration order, with the Go type
    of each field, and a reader that returns the value of a field given
    its name, as a component holding the struct can do for any exported
    field. *)

Inductive GoType : Type :=
| TBool | TByte | TInt | TString | TDuration
| TMapStringString
| TSliceOfPtr (struct_name : string).

Inductive GoValue : Type :=
| VBool (b : bool)
| VNum (z : Z)
| VString (s : string)
| VLabels (m : gmap string string)
| VConfigs (l : list ServerLoggingConfig.t).

Record Field (S : Type) : Type := mkField {
  fname : string;
  ftype : GoType;
  fread : S -> GoValue
}.
Arguments mkField {S} _ _ _.
Arguments fname {S} _.
Arguments ftype {S} _.
Arguments fread {S} _ _.

Definition ClientConfig_fields : list (Field ClientConfig.t) :=
  [ mkField "Enabled" TBool (fun c => VBool (ClientConfig.Enabled c));
    mkField "AppName" TString (fun c => VString (ClientConfig.AppName c));
    mkField "Level" TByte (fun c => VNum (ClientConfig.Level c));
    mkField "Endpoint" TString (fun c => VString (ClientConfig.Endpoint c));
    mkField "NumberOfConnections" TInt
      (fun c => VNum (ClientConfig.NumberOfConnections c));
    mkField "NumberOfHiPriConnections" TInt
      (fun c => VNum (ClientConfig.NumberOfHiPriConnections c));
    mkField "NumberOfBackupConnections" TInt
      (fun c => VNum (ClientConfig.NumberOfBackupConnections c));
    mkField "NumberOfHiPriBackupConnections" TInt
      (fun c => VNum (ClientConfig.NumberOfHiPriBackupConnections c));
    mkField "ConnectionResetInterval" TDuration
      (fun c => VNum (ClientConfig.ConnectionResetInterval c));
    mkField "ChannelSize" TInt (fun c => VNum (ClientConfig.ChannelSize c));
    mkField "OverflowChannelSize" TInt
      (fun c => VNum (ClientConfig.OverflowChannelSize c));
    mkField "OverflowChannelLoggingLevel" TByte
      (fun c => VNum (ClientConfig.OverflowChannelLoggingLevel c));
    mkField "HipriLoggingLevel" TByte
      (fun c => VNum (ClientConfig.HipriLoggingLevel c));
    mkField "HipriChannelSize" TInt
      (fun c => VNum (ClientConfig.HipriChannelSize c));
    mkField "TargetMessageBatchSize" TInt
      (fun c => VNum (ClientConfig.TargetMessageBatchSize c));
    mkField "SendBatchLogsInterval" TDuration
      (fun c => VNum (ClientConfig.SendBatchLogsInterval c));
    mkField "CommonLabels" TMapStringString
      (fun c => VLabels (ClientConfig.CommonLabels c));
    mkField "ServerConfigGroup" TString
      (fun c => VString (ClientConfig.ServerConfigGroup c));
    mkField "ServerConfigName" TString
      (fun c => VString (ClientConfig.ServerConfigName c));
    mkField "HealthCheckInterval" TDuration
      (fun c => VNum (ClientConfig.HealthCheckInterval c));
    mkField "HealthCheckFailureThreshold" TInt
      (fun c => VNum (ClientConfig.HealthCheckFailureThreshold c));
    mkField "RequestTrackingTimout" TInt
      (fun c => VNum (ClientConfig.RequestTrackingTimout c));
    mkField "ConnectionShutdownTimout" TDuration
      (fun c => VNum (ClientConfig.ConnectionShutdownTimout c));
    mkField "ProjectID" TString (fun c => VString (ClientConfig.ProjectID c));
    mkField "CredentialsFilePath" TString
      (fun c => VString (ClientConfig.CredentialsFilePath c)) ].

Definition ServerLoggingConfigs_fields : list (Field ServerLoggingConfigs.t) :=
  [ mkField "Enabled" TBool (fun c => VBool (ServerLoggingConfigs.Enabled c));
    mkField "DefaultConfigGroupName" TString
      (fun c => VString (ServerLoggingConfigs.DefaultConfigGroupName c));
    mkField "DefaultConfigName" TString
      (fun c => VString (ServerLoggingConfigs.DefaultConfigName c));
    mkField "DeliveryMethod" TByte
      (fun c => VNum (ServerLoggingConfigs.DeliveryMethod c));
    mkField "Configs" (TSliceOfPtr "ServerLoggingConfig")
      (fun c => VConfigs (ServerLoggingConfigs.Configs c)) ].

Definition field_names {S : Type} (fs : list (Field S)) : list string :=
  fname <$> fs.

Definition has_field {S : Type} (fs : list (Field S)) (name : string) : bool :=
  bool_decide (name ∈ field_names fs).

(** Go exports an identifier when its first letter is upper case. *)
Definition is_upper (a : Ascii.ascii) : bool :=
  let n := Z.of_nat (Ascii.nat_of_ascii a) in (65 <=? n) && (n <=? 90).

Definition exported (name : string) : bool :=
  match name with
  | String a _ => is_upper a
  | EmptyString => false
  end.


(** [c.<name>] from any package: defined for the exported fields. *)
Definition read_field {S : Type} (fs : list (Field S)) (name : string) (c : S)
  : option GoValue :=
  match list_find (fun f => fname f = name) fs with
  | Some (_, f) => if exported name then Some (fread f c) else None
  | None => None
  end.

(** ** Log levels *)

Inductive LogLevel : Type := LError | LWarn | LInfo | LDebug.

Definition level_code (l : LogLevel) : Z :=
  match l with
  | LError => LevelError
  | LWarn => LevelWarn
  | LInfo => LevelInfo
  | LDebug => LevelDebug
  end.

(** Rank of a level by how serious the logged event is: [debug] lowest,
    [error] highest. *)
Definition severity (l : LogLevel) : nat :=
  match l with
  | LError => 3
  | LWarn => 2
  | LInfo => 1
  | LDebug => 0
  end%nat.

Definition more_severe (a b : LogLevel) : Prop := (severity b < severity a)%nat.

(** A test of the form [level >= threshold] on level bytes. *)
Definition level_at_least (threshold level : Z) : bool := threshold <=? level.

(** ** The retry counter of a package

    [retry_if_below] is the guarded increment: the counter is
    incremented only while it is strictly below [RetryCount]. *)

Definition retry_if_below (p : TransportPackage.t) : TransportPackage.t :=
  if TransportPackage.RetryCount p <? RetryCount
  then TransportPackage.incrRetryCount p
  else p.

Definition retry_n (n : nat) (p : TransportPackage.t) : TransportPackage.t :=
  Nat.iter n retry_if_below p.

(** * The delivery pipeline *)

(** Modelled from the spec: the configuration-loading boundary.  The
    package has no loader; the design document lists what a populated
    [ClientConfig] supplies: enabled flag; app name; level; endpoint;
    connection counts per pool; reset interval; lane sizes; overflow and
    hi-pri thresholds; target batch size and interval; common labels;
    health-check interval and failure threshold; shutdown timeout. *)
Definition boundary_fields : list string :=
  [ "Enabled"; "AppName"; "Level"; "Endpoint";
    "NumberOfConnections"; "NumberOfHiPriConnections";
    "NumberOfBackupConnections"; "NumberOfHiPriBackupConnections";
    "ConnectionResetInterval";
    "ChannelSize"; "HipriChannelSize"; "OverflowChannelSize";
    "OverflowChannelLoggingLevel"; "HipriLoggingLevel";
    "TargetMessageBatchSize"; "SendBatchLogsInterval";
    "CommonLabels";
    "HealthCheckInterval"; "HealthCheckFailureThreshold";
    "ConnectionShutdownTimout" ].

Definition beyond_boundary (name : string) : bool :=
  has_field ClientConfig_fields name && negb (bool_decide (name ∈ boundary_fields)).

(** ** Priority Classifier *)

(** Modelled from the spec: the lanes a record or group is assigned to;
    the package does not declare them. *)
Inductive Lane : Type := normal | hiPri | overflow.

(** Modelled from the spec: the Priority Classifier, which the package
    does not contain.  It returns [hiPri] if the weighted level is at
    least [HipriLoggingLevel], [overflow] if the target normal lane is
    currently saturated and the level is at least
    [OverflowChannelLoggingLevel], else [normal].  The design document
    does not say how the weighted level of a group is computed, so the
    classifier takes it as the function [weighted_level]. *)
Definition classify (weighted_level : LogGroup.t -> Z) (cfg : ClientConfig.t)
    (normal_saturated : bool) (g : LogGroup.t) : Lane :=
  let lvl := weighted_level g in
  if level_at_least (ClientConfig.HipriLoggingLevel cfg) lvl then hiPri
  else if normal_saturated
          && level_at_least (ClientConfig.OverflowChannelLoggingLevel cfg) lvl
       then overflow
       else normal.

(** Modelled from the spec: an ungrouped record is classified as the
    singleton group that holds it. *)
Definition singleton_group (r : LogData.t) : LogGroup.t :=
  LogGroup.mk (LogData.CorrelationData r) [r].


(** ** Connections and their health *)

(** Modelled from the spec: the health states and the pools of a
    connection; the package does not declare them. *)
Inductive Health : Type := Healthy | Suspect | Unhealthy.
Inductive PoolKind : Type := NormalPool | HiPriPool | BackupPool.

#[global] Instance Health_eq_dec : EqDecision Health.
Proof. solve_decision. Defined.
#[global] Instance PoolKind_eq_dec : EqDecision PoolKind.
Proof. solve_decision. Defined.

(** Modelled from the spec: the Connection entity, which the package
    does not declare.  Identity, pool membership, health state,
    consecutive-failure count, last-reset and last-healthcheck
    timestamps are the fields the design document lists.  [reopened]
    records that the connection was reset since it was last marked
    Unhealthy; [next_id] is the next sequence id of the connection's
    stream, a [uint64] like [TransportPackage.ID]. *)
Record Connection : Type := mkConnection {
  conn_id : string;
  pool : PoolKind;
  health : Health;
  failures : Z;
  last_reset : Z;
  last_healthcheck : Z;
  reopened : bool;
  next_id : Z
}.

Definition set_health (h : Health) (n : Z) (r : bool) (c : Connection) : Connection :=
  mkConnection (conn_id c) (pool c) h n (last_reset c) (last_healthcheck c) r (next_id c).

(** Modelled from the spec: a failed send or failed healthcheck
    increments the failure count; reaching [HealthCheckFailureThreshold]
    consecutive failures moves a connection from Healthy or Suspect to
    Unhealthy.  Below the threshold a connection with failures is
    Suspect. *)
Definition on_failure (cfg : ClientConfig.t) (c : Connection) : Connection :=
  let n := failures c + 1 in
  match health c with
  | Unhealthy => set_health Unhealthy n false c
  | Healthy | Suspect =>
      if ClientConfig.HealthCheckFailureThreshold cfg <=? n
      then set_health Unhealthy n false c
      else set_health Suspect n (reopened c) c
  end.

(** Modelled from the spec: a successful healthcheck response resets the
    failure count to zero.  An Unhealthy connection returns to Healthy
    only when the success follows an explicit reset. *)
Definition on_success (c : Connection) : Connection :=
  match health c with
  | Unhealthy =>
      if reopened c then set_health Healthy 0 false c
      else set_health Unhealthy 0 false c
  | Healthy | Suspect => set_health Healthy 0 (reopened c) c
  end.

(** Modelled from the spec: reset is close and reopen of an Unhealthy
    connection; it records the time and leaves the health state for the
    next healthcheck to decide. *)
Definition on_reset (now : Z) (c : Connection) : Connection :=
  match health c with
  | Unhealthy =>
      mkConnection (conn_id c) (pool c) Unhealthy (failures c) now
        (last_healthcheck c) true (next_id c)
  | Healthy | Suspect =>
      mkConnection (conn_id c) (pool c) (health c) (failures c) now
        (last_healthcheck c) (reopened c) (next_id c)
  end.

Definition stamp_healthcheck (now : Z) (c : Connection) : Connection :=
  mkConnection (conn_id c) (pool c) (health c) (failures c) (last_reset c)
    now (reopened c) (next_id c).

(** Modelled from the spec: what can happen to one pooled connection, a
    healthcheck response or timeout, a failed send, a reset. *)
Inductive ConnEvent : Type :=
| HealthcheckOk (now : Z)
| HealthcheckFailed (now : Z)
| SendFailed
| Reset (now : Z).

(** Modelled from the spec: the per-connection state machine
    [Healthy -> Suspect -> Unhealthy -> (reset) -> Healthy] driven by
    the Health Checker, the Dispatcher and the Pool Manager. *)
Definition conn_step (cfg : ClientConfig.t) (c : Connection) (e : ConnEvent)
  : Connection :=
  match e with
  | HealthcheckOk now => on_success (stamp_healthcheck now c)
  | HealthcheckFailed now => on_failure cfg (stamp_healthcheck now c)
  | SendFailed => on_failure cfg c
  | Reset now => on_reset now c
  end.




(** ** Dispatcher *)

(** Modelled from the spec: the error kinds of the error-handling
    design. *)
Inductive ErrorKind : Type :=
| ErrorBufferFull
| ErrorNoHealthyConnection
| ErrorSendFailed
| ErrorRetriesExhausted
| ErrorHealthCheckTimeout.

(** Modelled from the spec: target pool by lane (normal to the normal
    pool, hiPri to the hi-pri pool, overflow to the normal pool). *)
Definition pool_of_lane (l : Lane) : PoolKind :=
  match l with
  | normal => NormalPool
  | hiPri => HiPriPool
  | overflow => NormalPool
  end.

Definition package_type_of_lane (l : Lane) : Z :=
  match l with
  | hiPri => TransportPackageTypeHiPriLog
  | normal | overflow => TransportPackageTypeLog
  end.

(** Modelled from the spec: one send of a package on a connection, as
    the transport collaborator saw it. *)
Record Attempt : Type := mkAttempt {
  at_slot : nat;
  at_pool : PoolKind;
  at_health : Health;
  at_package : TransportPackage.t;
  at_ok : bool
}.

(** Modelled from the spec: the state the Dispatcher works on.  [conns]
    are the pooled connections by slot, [cursor] is the round-robin
    position, [attempts] is the chronological record of sends, and
    [counted] the errors counted so far. *)
Record Dispatcher : Type := mkDispatcher {
  conns : list Connection;
  cursor : nat;
  attempts : list Attempt;
  counted : list ErrorKind
}.

(** Modelled from the spec: the life of a package, created and queued
    for a send, then delivered or discarded. *)
Inductive PkgState : Type :=
| Pending (p : TransportPackage.t)
| Delivered (p : TransportPackage.t)
| Discarded (p : TransportPackage.t) (e : ErrorKind).

Definition package_of (s : PkgState) : TransportPackage.t :=
  match s with
  | Pending p | Delivered p | Discarded p _ => p
  end.

(** Modelled from the spec: the Dispatcher selects only Healthy
    connections of the target pool. *)
Definition eligible (target : PoolKind) (c : Connection) : bool :=
  bool_decide (pool c = target) && bool_decide (health c = Healthy).

(** Slots in round-robin order: from the cursor to the end, then from
    the start up to the cursor. *)
Definition scan_order (start n : nat) : list nat :=
  let s := (start mod n)%nat in seq s (n - s) ++ seq 0 s.

Fixpoint first_eligible (target : PoolKind) (cs : list Connection)
    (order : list nat) : option (nat * Connection) :=
  match order with
  | [] => None
  | i :: rest =>
      match cs !! i with
      | Some c =>
          if eligible target c then Some (i, c)
          else first_eligible target cs rest
      | None => first_eligible target cs rest
      end
  end.

(** Modelled from the spec: connection selection is round-robin among
    the Healthy connections of the target pool. *)
Definition select (target : PoolKind) (d : Dispatcher) : option (nat * Connection) :=
  first_eligible target (conns d) (scan_order (cursor d) (length (conns d))).

Definition stamp (id : Z) (p : TransportPackage.t) : TransportPackage.t :=
  TransportPackage.mk id (TransportPackage.Type_ p) (TransportPackage.Data p)
    (TransportPackage.Payload p) (TransportPackage.RetryCount p).

Definition use_id (c : Connection) : Connection :=
  mkConnection (conn_id c) (pool c) (health c) (failures c) (last_reset c)
    (last_healthcheck c) (reopened c) (uint64_incr (next_id c)).

(** Modelled from the spec: a package is created by the Dispatcher
    immediately before send, with a zero retry counter. *)
Definition new_package (type : Z) (data : PackageData) (payload : list Z)
  : TransportPackage.t :=
  TransportPackage.mk 0 type data payload 0.

Definition count_error (e : ErrorKind) (d : Dispatcher) : Dispatcher :=
  mkDispatcher (conns d) (cursor d) (attempts d) (counted d ++ [e]).

Definition update_conn (i : nat) (f : Connection -> Connection) (d : Dispatcher)
  : Dispatcher :=
  mkDispatcher (alter f i (conns d)) (cursor d) (attempts d) (counted d).

Section Transport.

(** The transport collaborator, [send(package) -> success|failure]:
    the outcome of the [n]-th send overall, on a connection, of a
    package. *)
Variable send : nat -> Connection -> TransportPackage.t -> bool.
Variable cfg : ClientConfig.t.

(** Modelled from the spec: sequence ids are monotonic and unique per
    connection stream.  A package put on the stream of the connection
    in slot [i] takes the stream's next sequence id, and the send is
    recorded. *)
Definition transmit (i : nat) (c : Connection) (p : TransportPackage.t)
    (d : Dispatcher) : Dispatcher * TransportPackage.t * bool :=
  let p1 := stamp (next_id c) p in
  let ok := send (length (attempts d)) c p1 in
  let d1 :=
    mkDispatcher (<[i := use_id c]> (conns d)) (S i)
      (attempts d ++ [mkAttempt i (pool c) (health c) p1 ok]) (counted d) in
  (d1, p1, ok).

(** Modelled from the spec: one turn of the Dispatcher on a package.
    It obtains a Healthy connection of the target pool, failing fast
    with [ErrorNoHealthyConnection] if none exists, and sends.  On send
    failure it increments the package retry counter; if the counter is
    below [RetryCount] the package is re-queued for an immediate retry;
    otherwise the package is dropped and counted, and the owning
    connection's failure count is incremented. *)
Definition dispatch_step (target : PoolKind) (st : Dispatcher * PkgState)
  : Dispatcher * PkgState :=
  match st with
  | (d, Pending p) =>
      match select target d with
      | None =>
          (count_error ErrorNoHealthyConnection d,
           Discarded p ErrorNoHealthyConnection)
      | Some (i, c) =>
          let '(d1, p1, ok) := transmit i c p d in
          if ok then (d1, Delivered p1)
          else
            let p2 := TransportPackage.incrRetryCount p1 in
            if TransportPackage.RetryCount p2 <? RetryCount
            then (d1, Pending p2)
            else
              (count_error ErrorRetriesExhausted
                 (update_conn i (on_failure cfg) d1),
               Discarded p2 ErrorRetriesExhausted)
      end
  | (d, Delivered p) => (d, Delivered p)
  | (d, Discarded p e) => (d, Discarded p e)
  end.

Definition dispatch_steps (n : nat) (target : PoolKind)
    (st : Dispatcher * PkgState) : Dispatcher * PkgState :=
  Nat.iter n (dispatch_step target) st.

(** Modelled from the spec: the Dispatcher works on a package until it
    is delivered or discarded; [RetryCount] turns are enough for a new
    package. *)
Definition dispatch (target : PoolKind) (d : Dispatcher) (p : TransportPackage.t)
  : Dispatcher * PkgState :=
  dispatch_steps (Z.to_nat RetryCount) target (d, Pending p).

(** Modelled from the spec: for each ready batch the Dispatcher
    constructs a package per item and sends it to the pool of the
    lane. *)
Definition dispatch_item (serialize : LogGroup.t -> list Z) (l : Lane)
    (d : Dispatcher) (g : LogGroup.t) : Dispatcher :=
  fst (dispatch (pool_of_lane l) d
         (new_package (package_type_of_lane l) (DataLogGroup g) (serialize g))).

Definition dispatch_batch (serialize : LogGroup.t -> list Z) (l : Lane)
    (d : Dispatcher) (batch : list LogGroup.t) : Dispatcher :=
  fold_left (dispatch_item serialize l) batch d.

(** Modelled from the spec: the Health Checker sends a healthcheck
    package through the connection's own stream; a successful response
    resets the failure count, a timeout or error counts as one
    failure. *)
Definition healthcheck (i : nat) (now : Z) (d : Dispatcher) : Dispatcher :=
  match conns d !! i with
  | None => d
  | Some c =>
      let '(d1, _, ok) :=
        transmit i c (new_package TransportPackageTypeHealhcheck DataNil []) d in
      let e := if ok then HealthcheckOk now else HealthcheckFailed now in
      mkDispatcher (alter (fun c1 => conn_step cfg c1 e) i (conns d1))
        (cursor d) (attempts d1) (counted d1)
  end.

(** Modelled from the spec: the Pool Manager resets the connection in
    slot [i]. *)
Definition reset_connection (i : nat) (now : Z) (d : Dispatcher) : Dispatcher :=
  update_conn i (fun c => conn_step cfg c (Reset now)) d.

End Transport.

(** The sequence ids seen on the stream of slot [i], oldest first: of
    every package, and of the packages the Dispatcher sent. *)
Definition stream_ids (i : nat) (d : Dispatcher) : list Z :=
  (fun a => TransportPackage.ID (at_package a))
    <$> filter (fun a => at_slot a = i) (attempts d).

Definition is_log_package (a : Attempt) : Prop :=
  TransportPackage.Type_ (at_package a) ≠ TransportPackageTypeHealhcheck.

Definition dispatcher_ids (i : nat) (d : Dispatcher) : list Z :=
  (fun a => TransportPackage.ID (at_package a))
    <$> filter (fun a => at_slot a = i ∧ is_log_package a) (attempts d).

Definition all_ids (d : Dispatcher) : list Z :=
  (fun a => TransportPackage.ID (at_package a)) <$> attempts d.

Definition strictly_increasing (l : list Z) : Prop := StronglySorted Z.lt l.

(** ** Correlator *)

(** The correlation id of a record, when it has one. *)
Definition correlation_id (r : LogData.t) : option string :=
  CorrelationData.CorrelationID <$> LogData.CorrelationData r.

(** Modelled from the spec: the Correlator's only state, the mapping
    from correlation id to the group pending flush, each with the time
    of its latest record. *)
Record Correlator : Type := mkCorrelator {
  pending : gmap string (LogGroup.t * Z)
}.

(** Modelled from the spec: what reaches the Correlator, a submitted
    record, an explicit close signal for an id, a sweep tick. *)
Inductive CorrEvent : Type :=
| Submit (now : Z) (r : LogData.t)
| Close (id : string)
| Tick (now : Z).

Definition append_log (r : LogData.t) (g : LogGroup.t) : LogGroup.t :=
  LogGroup.mk (LogGroup.CorrelationData g) (LogGroup.Logs g ++ [r]).

(** A group is idle at [now] when the window has elapsed since its
    latest record. *)
Definition idle (window now : Z) (entry : string * (LogGroup.t * Z)) : Prop :=
  window <= now - snd (snd entry).

#[global] Instance idle_dec window now entry : Decision (idle window now entry).
Proof. unfold idle. apply _. Defined.

(** Modelled from the spec: the Correlator accepts a record, looks up
    or creates the group keyed by its correlation id (absent id gives a
    singleton group) and appends the record.  A group is flushed when an
    explicit close signal for its id arrives, or when the idle window
    has elapsed with no new record for that id at a sweep tick.  The
    result is the new state and the groups flushed to the Classifier. *)
Definition corr_step (window : Z) (s : Correlator) (e : CorrEvent)
  : Correlator * list LogGroup.t :=
  match e with
  | Submit now r =>
      match correlation_id r with
      | None => (s, [singleton_group r])
      | Some k =>
          match pending s !! k with
          | Some (g, _) =>
              (mkCorrelator (<[k := (append_log r g, now)]> (pending s)), [])
          | None =>
              (mkCorrelator (<[k := (singleton_group r, now)]> (pending s)), [])
          end
      end
  | Close k =>
      match pending s !! k with
      | Some (g, _) => (mkCorrelator (delete k (pending s)), [g])
      | None => (s, [])
      end
  | Tick now =>
      (mkCorrelator (filter (fun entry => ¬ idle window now entry) (pending s)),
       (fun entry => fst (snd entry))
         <$> map_to_list (filter (idle window now) (pending s)))
  end.

(** A run of the Correlator: the final state and every group flushed,
    oldest first. *)
Fixpoint corr_run (window : Z) (s : Correlator) (es : list CorrEvent)
  : Correlator * list LogGroup.t :=
  match es with
  | [] => (s, [])
  | e :: rest =>
      let '(s1, out1) := corr_step window s e in
      let '(s2, out2) := corr_run window s1 rest in
      (s2, out1 ++ out2)
  end.

Definition empty_correlator : Correlator := mkCorrelator ∅.

(** The records of a run that carry correlation id [k], in submission
    order. *)
Fixpoint submitted (k : string) (es : list CorrEvent) : list LogData.t :=
  match es with
  | [] => []
  | Submit _ r :: rest =>
      if bool_decide (correlation_id r = Some k)
      then r :: submitted k rest
      else submitted k rest
  | _ :: rest => submitted k rest
  end.





(** ** Lane Buffers and Batcher *)

(** Modelled from the spec: three independently sized bounded buffers,
    first-in-first-out within a lane. *)
Record Lanes : Type := mkLanes {
  lane_normal : list LogGroup.t;
  lane_hipri : list LogGroup.t;
  lane_overflow : list LogGroup.t
}.

Definition saturated (capacity : Z) (buffer : list LogGroup.t) : bool :=
  capacity <=? Z.of_nat (length buffer).

(** Modelled from the spec: [enqueue] never blocks.  On a full normal
    buffer the item is redirected to the overflow lane if it qualifies
    per the Classifier, otherwise the enqueue fails fast and the record
    is dropped with a counted failure.  A full hi-pri or overflow buffer
    drops the caller's item. *)
Definition enqueue (weighted_level : LogGroup.t -> Z) (cfg : ClientConfig.t)
    (ls : Lanes) (g : LogGroup.t) : Lanes * option ErrorKind :=
  let full := saturated (ClientConfig.ChannelSize cfg) (lane_normal ls) in
  match classify weighted_level cfg full g with
  | hiPri =>
      if saturated (ClientConfig.HipriChannelSize cfg) (lane_hipri ls)
      then (ls, Some ErrorBufferFull)
      else (mkLanes (lane_normal ls) (lane_hipri ls ++ [g]) (lane_overflow ls),
            None)
  | overflow =>
      if saturated (ClientConfig.OverflowChannelSize cfg) (lane_overflow ls)
      then (ls, Some ErrorBufferFull)
      else (mkLanes (lane_normal ls) (lane_hipri ls) (lane_overflow ls ++ [g]),
            None)
  | normal =>
      if full then (ls, Some ErrorBufferFull)
      else (mkLanes (lane_normal ls ++ [g]) (lane_hipri ls) (lane_overflow ls),
            None)
  end.

Definition lane_buffer (l : Lane) (ls : Lanes) : list LogGroup.t :=
  match l with
  | normal => lane_normal ls
  | hiPri => lane_hipri ls
  | overflow => lane_overflow ls
  end.

Definition set_lane_buffer (l : Lane) (buffer : list LogGroup.t) (ls : Lanes)
  : Lanes :=
  match l with
  | normal => mkLanes buffer (lane_hipri ls) (lane_overflow ls)
  | hiPri => mkLanes (lane_normal ls) buffer (lane_overflow ls)
  | overflow => mkLanes (lane_normal ls) (lane_hipri ls) buffer
  end.

(** Modelled from the spec: the Batcher emits up to
    [TargetMessageBatchSize] items of a lane, oldest first, when the
    batch is due. *)
Definition take_batch (cfg : ClientConfig.t) (l : Lane) (ls : Lanes)
  : list LogGroup.t * Lanes :=
  let n := Z.to_nat (ClientConfig.TargetMessageBatchSize cfg) in
  (take n (lane_buffer l ls), set_lane_buffer l (drop n (lane_buffer l ls)) ls).

(** ** The pipeline as one state *)

(** Modelled from the spec: the shared [ClientConfig], supplied at
    startup, together with the state of each component that reads it. *)
Record Pipeline : Type := mkPipeline {
  config : ClientConfig.t;
  correlator : Correlator;
  lanes : Lanes;
  dispatcher : Dispatcher
}.

(** Modelled from the spec: what drives the pipeline, an emitted record,
    a close signal, a sweep tick, a due batch of a lane, a due
    healthcheck or reset of a connection. *)
Inductive PipelineEvent : Type :=
| Emit (now : Z) (r : LogData.t)
| CloseGroup (id : string)
| SweepTick (now : Z)
| BatchDue (l : Lane)
| HealthcheckDue (slot : nat) (now : Z)
| ResetDue (slot : nat) (now : Z).

Section Pipeline.

Variable send : nat -> Connection -> TransportPackage.t -> bool.
Variable serialize : LogGroup.t -> list Z.
Variable weighted_level : LogGroup.t -> Z.
Variable window : Z.

(** Flushed groups enter the lanes; a dropped group is counted. *)
Definition enqueue_all (cfg : ClientConfig.t) (ls : Lanes) (d : Dispatcher)
    (gs : list LogGroup.t) : Lanes * Dispatcher :=
  fold_left
    (fun '(ls1, d1) g =>
       match enqueue weighted_level cfg ls1 g with
       | (ls2, Some e) => (ls2, count_error e d1)
       | (ls2, None) => (ls2, d1)
       end)
    gs (ls, d).

Definition correlate (e : CorrEvent) (s : Pipeline) : Pipeline :=
  let '(c1, flushed) := corr_step window (correlator s) e in
  let '(ls1, d1) := enqueue_all (config s) (lanes s) (dispatcher s) flushed in
  mkPipeline (config s) c1 ls1 d1.

(** Modelled from the spec: the data flow record, Correlator,
    Classifier, Lane Buffer, Batcher, Dispatcher, with the Health
    Checker and connection reset acting on the pooled connections. *)
Definition pipeline_step (s : Pipeline) (e : PipelineEvent) : Pipeline :=
  match e with
  | Emit now r => correlate (Submit now r) s
  | CloseGroup k => correlate (Close k) s
  | SweepTick now => correlate (Tick now) s
  | BatchDue l =>
      let '(batch, ls1) := take_batch (config s) l (lanes s) in
      mkPipeline (config s) (correlator s) ls1
        (dispatch_batch send (config s) serialize l (dispatcher s) batch)
  | HealthcheckDue i now =>
      mkPipeline (config s) (correlator s) (lanes s)
        (healthcheck send (config s) i now (dispatcher s))
  | ResetDue i now =>
      mkPipeline (config s) (correlator s) (lanes s)
        (reset_connection (config s) i now (dispatcher s))
  end.

Definition pipeline_run (s : Pipeline) (es : list PipelineEvent) : Pipeline :=
  fold_left pipeline_step es s.

End Pipeline.

(** ** Invariants used in the proofs *)

(** The retry counter of a package is in range for the state it is in,
    and so was the counter of every package sent. *)
Definition counter_in_range (s : PkgState) : Prop :=
  match s with
  | Pending p | Delivered p => 0 <= TransportPackage.RetryCount p < RetryCount
  | Discarded p _ => 0 <= TransportPackage.RetryCount p <= RetryCount
  end.

Definition sent_in_range (d : Dispatcher) : Prop :=
  Forall (fun a => 0 <= TransportPackage.RetryCount (at_package a) < RetryCount)
    (attempts d).


(** The streams are in order: on every slot the ids sent so far are
    strictly increasing and below the connection's next id, which is at
    most the number of sends made. *)
Definition stream_ok (d : Dispatcher) : Prop :=
  ∀ i, strictly_increasing (stream_ids i d) ∧
       ∀ c, conns d !! i = Some c →
            0 <= next_id c <= Z.of_nat (length (attempts d)) ∧
            Forall (fun x => x < next_id c) (stream_ids i d).

(** A Dispatcher that has sent nothing, on streams that start at id 0. *)
Definition fresh (d : Dispatcher) : Prop :=
  attempts d = [] ∧ Forall (fun c => next_id c = 0) (conns d).

(** An operation on the Dispatcher only adds sends, and keeps the
    streams in order as long as the sends made stay within the [uint64]
    range of the sequence id. *)
Definition keeps_streams (d d' : Dispatcher) : Prop :=
  (length (attempts d) <= length (attempts d'))%nat ∧
  (stream_ok d → Z.of_nat (length (attempts d')) < 2 ^ 64 → stream_ok d').




(** ** Sample values *)

Definition sample_config : ClientConfig.t :=
  ClientConfig.mk true "app" LevelDebug "localhost:8080" 2 1 1 1 60 2 2
    LevelWarn LevelInfo 2 2 5 ∅ "group" "default" 10 2 30 5
    "project" "/etc/credentials.json".


Definition sample_correlation (id : string) : CorrelationData.t :=
  CorrelationData.mk id "request" ∅.

Definition sample_log (id : option string) (message : string) : LogData.t :=
  LogData.mk 0 LevelInfo LogTypeLog 0 message None []
    (sample_correlation <$> id) ∅.

Definition sample_group (id : string) : LogGroup.t :=
  LogGroup.mk (Some (sample_correlation id))
    [sample_log (Some id) "first"; sample_log (Some id) "second"].

Definition sample_connection (id : string) (k : PoolKind) : Connection :=
  mkConnection id k Healthy 0 0 0 false 0.

(** Two normal connections and one hi-pri connection, nothing sent. *)
Definition sample_dispatcher : Dispatcher :=
  mkDispatcher
    [sample_connection "a" NormalPool; sample_connection "b" NormalPool;
     sample_connection "c" HiPriPool]
    0 [] [].

Definition sample_pipeline : Pipeline :=
  mkPipeline sample_config empty_correlator
    (mkLanes [sample_group "x"; sample_group "y"; sample_group "z"]
       [sample_group "h"] [])
    sample_dispatcher.

Definition never_delivers : nat -> Connection -> TransportPackage.t -> bool :=
  fun _ _ _ => false.

Definition always_delivers : nat -> Connection -> TransportPackage.t -> bool :=
  fun _ _ _ => true.

Definition no_payload (g : LogGroup.t) : list Z := [].

(** The level of the first record of a group, as a stand-in weighted
    level for the sample runs. *)
Definition first_level (g : LogGroup.t) : Z :=
  match LogGroup.Logs g with
  | r :: _ => LogData.Level r
  | [] => LevelDebug
  end.

(** Two batches of the normal lane, a healthcheck of slot 0, and a batch
    of the hi-pri lane. *)
Definition sample_run : list PipelineEvent :=
  [BatchDue normal; BatchDue normal; HealthcheckDue 0 7; BatchDue hiPri].

(** Three records with id ["k"], each less than a window of 10 after
    the one before but 19 apart in all, between other traffic, with a
    sweep tick before the first and a sweep that flushes the group
    after the last. *)
Definition sample_submissions : list CorrEvent :=
  [ Tick 0;
    Submit 100 (sample_log (Some "k") "a");
    Submit 105 (sample_log (Some "other") "b");
    Submit 106 (sample_log None "c");
    Tick 108;
    Submit 109 (sample_log (Some "k") "d");
    Close "other";
    Tick 118;
    Submit 119 (sample_log (Some "k") "e");
    Tick 200 ].

(** * More of the package: constant families, JSON keys, field names *)

(** ** The families of byte constants (model.go, lines 32-49) *)

Inductive PackageType : Type := PkgLog | PkgHiPriLog | PkgHealthcheck.

Definition package_type_code (t : PackageType) : Z :=
  match t with
  | PkgLog => TransportPackageTypeLog
  | PkgHiPriLog => TransportPackageTypeHiPriLog
  | PkgHealthcheck => TransportPackageTypeHealhcheck
  end.

Inductive LogType : Type := TyLog | TyAudit.

Definition log_type_code (t : LogType) : Z :=
  match t with
  | TyLog => LogTypeLog
  | TyAudit => LogTypeAudit
  end.

Inductive DeliveryMethod : Type := ClientSpecified | RoundRobin.

Definition delivery_method_code (m : DeliveryMethod) : Z :=
  match m with
  | ClientSpecified => DeliveryMethodClientSpecified
  | RoundRobin => DeliveryMethodRoundRobin
  end.

(** ** [LoggedData] (model.go, lines 104-111) *)

Module LoggedData.
Record t : Type := mk {
  Type_ : Z;
  Weight : Z;
  Message : string;
  Error : option string;
  Context : option (gmap string Any)
}.

(** The zero value, [LoggedData{}]: the [Context] map is nil. *)
Definition zero : t := mk 0 0 "" None None.

(** A value that differs from the zero value only in holding an empty
    map that is not nil, [LoggedData{Context: map[string]interface{}{}}]. *)
Definition empty_context : t := mk 0 0 "" None (Some ∅).
End LoggedData.

(** ** JSON struct tags

    A tag [json:"key"] or [json:"key,omitempty"] on a field: the key the
    field is written under, and whether the field is left out when its
    value is empty. *)
Record JsonTag : Type := mkJsonTag {
  tag_field : string;
  tag_key : string;
  tag_omitempty : bool
}.

#[global] Instance JsonTag_eq_dec : EqDecision JsonTag.
Proof. solve_decision. Defined.

(** The tags of [ClientConfig] (model.go, lines 138-162). *)
Definition ClientConfig_json : list JsonTag :=
  [ mkJsonTag "Enabled" "enabled" false;
    mkJsonTag "AppName" "appName" false;
    mkJsonTag "Level" "level" false;
    mkJsonTag "Endpoint" "endpoint" false;
    mkJsonTag "NumberOfConnections" "numberOfConnections" false;
    mkJsonTag "NumberOfHiPriConnections" "numberOfHiPriConnections" false;
    mkJsonTag "NumberOfBackupConnections" "numberOfBackupConnections" false;
    mkJsonTag "NumberOfHiPriBackupConnections"
      "numberOfHiPriBackupConnections" false;
    mkJsonTag "ConnectionResetInterval" "connectionResetInterval" false;
    mkJsonTag "ChannelSize" "channelSize" false;
    mkJsonTag "OverflowChannelSize" "overflowChannelSize" false;
    mkJsonTag "OverflowChannelLoggingLevel" "overflowChannelLoggingLevel" false;
    mkJsonTag "HipriLoggingLevel" "hipriLoggingLevel" false;
    mkJsonTag "HipriChannelSize" "hipriChannelSize" false;
    mkJsonTag "TargetMessageBatchSize" "targetMessageBatchSize" false;
    mkJsonTag "SendBatchLogsInterval" "sendBatchLogsInterval" false;
    mkJsonTag "CommonLabels" "commonLabels" false;
    mkJsonTag "ServerConfigGroup" "serverConfigGroup" false;
    mkJsonTag "ServerConfigName" "serverConfigName" false;
    mkJsonTag "HealthCheckInterval" "healthCheckInterval" false;
    mkJsonTag "HealthCheckFailureThreshold" "healthCheckFailureThreshold" false;
    mkJsonTag "RequestTrackingTimout" "requestTrackingTimout" false;
    mkJsonTag "ConnectionShutdownTimout" "connectionShutdownTimout" false;
    mkJsonTag "ProjectID" "ProjectID" false;
    mkJsonTag "CredentialsFilePath" "CredentialsFilePath" false ].

(** The tags of [LoggedData] (model.go, lines 106-110). *)
Definition LoggedData_json : list JsonTag :=
  [ mkJsonTag "Type" "Type" true;
    mkJsonTag "Weight" "Weight" true;
    mkJsonTag "Message" "Message" true;
    mkJsonTag "Error" "Error" true;
    mkJsonTag "Context" "Context" true ].

(** A map that is nil or has no entries. *)
Definition no_entries (m : option (gmap string Any)) : bool :=
  match m with
  | None => true
  | Some m => bool_decide (dom m = (∅ : gset string))
  end.

(** Whether the value of a field of a [LoggedData] is empty in the sense
    of [omitempty]: zero for a number, the empty string, a nil
    interface, a map, nil or not, with no entries. *)
Definition LoggedData_empty (d : LoggedData.t) (field : string) : bool :=
  if decide (field = "Type") then LoggedData.Type_ d =? 0
  else if decide (field = "Weight") then LoggedData.Weight d =? 0
  else if decide (field = "Message") then bool_decide (LoggedData.Message d = "")
  else if decide (field = "Error") then bool_decide (LoggedData.Error d = None)
  else if decide (field = "Context") then no_entries (LoggedData.Context d)
  else false.

(** A field is written unless its tag says [omitempty] and its value is
    empty. *)
Definition written (empty : string -> bool) (t : JsonTag) : bool :=
  negb (tag_omitempty t && empty (tag_field t)).

(** The keys of the JSON object written for a struct value, in field
    order. *)
Definition json_object_keys (tags : list JsonTag) (empty : string -> bool)
  : list string :=
  tag_key <$> filter (fun t => written empty t = true) tags.

(** ASCII case folding, under which a decoder matches keys when no key
    matches exactly. *)
Definition lower_ascii (a : Ascii.ascii) : Ascii.ascii :=
  if is_upper a then Ascii.ascii_of_nat (Ascii.nat_of_ascii a + 32) else a.

Fixpoint fold_case (s : string) : string :=
  match s with
  | EmptyString => EmptyString
  | String a rest => String (lower_ascii a) (fold_case rest)
  end.

Definition lower_first (s : string) : string :=
  match s with
  | EmptyString => EmptyString
  | String a rest => String (lower_ascii a) rest
  end.

(** The key a field is written under. *)
Definition json_key (tags : list JsonTag) (field : string) : option string :=
  (fun p => tag_key (snd p)) <$> list_find (fun t => tag_field t = field) tags.

(** The field an incoming key is stored in: the field whose key matches
    exactly, else the first whose key matches up to case. *)
Definition json_field (tags : list JsonTag) (key : string) : option string :=
  match list_find (fun t => tag_key t = key) tags with
  | Some (_, t) => Some (tag_field t)
  | None =>
      (fun p => tag_field (snd p))
        <$> list_find (fun t => fold_case (tag_key t) = fold_case key) tags
  end.

(** ** The struct types of the package and their field names, in
    declaration order (model.go, lines 58-260) *)
Definition model_structs : list (string * list string) :=
  [ ("TransportPackage", ["ID"; "Type"; "Data"; "Payload"; "RetryCount"]);
    ("CorrelationData", ["CorrelationID"; "Name"; "Custom"]);
    ("LogData",
     ["Timestamp"; "Level"; "Type"; "Weight"; "Message"; "Error";
      "ContextMap"; "CorrelationData"; "ContextMaps"]);
    ("LogGroup", ["CorrelationData"; "Logs"]);
    ("LoggedData", ["Type"; "Weight"; "Message"; "Error"; "Context"]);
    ("ClientConfig",
     ["Enabled"; "AppName"; "Level"; "Endpoint"; "NumberOfConnections";
      "NumberOfHiPriConnections"; "NumberOfBackupConnections";
      "NumberOfHiPriBackupConnections"; "ConnectionResetInterval";
      "ChannelSize"; "OverflowChannelSize"; "OverflowChannelLoggingLevel";
      "HipriLoggingLevel"; "HipriChannelSize"; "TargetMessageBatchSize";
      "SendBatchLogsInterval"; "CommonLabels"; "ServerConfigGroup";
      "ServerConfigName"; "HealthCheckInterval";
      "HealthCheckFailureThreshold"; "RequestTrackingTimout";
      "ConnectionShutdownTimout"; "ProjectID"; "CredentialsFilePath"]);
    ("ServerConfigs",
     ["ServicePort"; "ShutdownTimeout"; "ReadTimeout"; "WriteTimeout";
      "Logging"]);
    ("ServerLoggingConfigs",
     ["Enabled"; "DefaultConfigGroupName"; "DefaultConfigName";
      "DeliveryMethod"; "Configs"]);
    ("ServerLoggingConfig",
     ["Group"; "Name"; "ProjectID"; "CredentialsFilePath"; "Level";
      "NumberOfWorkers"; "MessagesChannelSize"; "ShutdownTimeout"]);
    ("OpenConnectionDataRequest",
     ["ClientID"; "IsHiPri"; "ClientConfigs"; "ContextMaps"]);
    ("OpenConnectionDataResponse", ["ConnectionID"; "StreamingEndpoint"]);
    ("ListConnectionResponse", ["ClientID"; "ConnectionID"]);
    ("GetConnectionResponse",
     ["IsActive"; "ClientID"; "ConnectionID"; "StreamingEndpoint"; "IsHiPri";
      "ClientConfigs"; "LastReceivedTime"]);
    ("PostConnectionRequest", ["IsActive"; "ClientConfigs"]);
    ("PostConnectionResponse", ["IsActive"; "ClientConfigs"]) ].

Definition struct_fields (name : string) : list string :=
  match list_find (fun p => fst p = name) model_structs with
  | Some (_, p) => snd p
  | None => []
  end.

(** The structs that declare a field of a given name. *)
Definition structs_with_field (field : string) : list string :=
  fst <$> filter (fun p => field ∈ snd p) model_structs.

(** ** The names each struct's doc comment documents, in the order of
    the comment (model.go, lines 52-57, 66, 73-82, 95-97, 104, 113-136,
    165-170, 179, 188, 200-205, 213-215, 221-223, 229-235, 246-248,
    254-256).  Every struct of the package has a doc comment; the
    comments of [CorrelationData], [LoggedData], [ServerLoggingConfigs]
    and [ServerLoggingConfig] name none of their fields. *)
Definition model_docs : list (string * list string) :=
  [ ("TransportPackage", ["ID"; "Type"; "Data"; "Payload"; "RetryCount"]);
    ("CorrelationData", []);
    ("LogData",
     ["Timestamp"; "Level"; "Type"; "Weight"; "Message"; "Context"; "Error";
      "ContextMap"; "Linked"]);
    ("LogGroup", ["CorrelationData"; "Logs"]);
    ("LoggedData", []);
    ("ClientConfig",
     ["Enabled"; "AppName"; "Level"; "Endpoint"; "NumberOfConnections";
      "NumberOfHiPriConnections"; "NumberOfBackupConnections";
      "NumberOfHiPriBackupConnections"; "ConnectionResetInterval";
      "ChannelSize"; "OverflowChannelSize"; "OverflowChannelLoggingLevel";
      "HipriLoggingLevel"; "HipriChannelSize"; "TargetMessageBatchSize";
      "SendBatchLogsInterval"; "CommonLabels"; "ServerConfigName";
      "HealthCheckInterval"; "HealthCheckFailureThreshold";
      "UserRequestTimout"; "ConnectionShutdownTimout"]);
    ("ServerConfigs",
     ["ServicePort"; "ShutdownTimeout"; "ReadTimeout"; "WriteTimeout";
      "Logging"]);
    ("ServerLoggingConfigs", []);
    ("ServerLoggingConfig", []);
    ("OpenConnectionDataRequest",
     ["ClientID"; "IsHiPri"; "ConfigName"; "CommonLabels"; "ContextMaps"]);
    ("OpenConnectionDataResponse", ["ConnectionID"; "StreamingEndpoint"]);
    ("ListConnectionResponse", ["ClientID"; "ConnectionID"]);
    ("GetConnectionResponse",
     ["IsActive"; "ClientID"; "ConnectionID"; "StreamingEndpoint"; "IsHiPri";
      "ClientConfigs"]);
    ("PostConnectionRequest", ["IsActive"; "ClientConfigs"]);
    ("PostConnectionResponse", ["IsActive"; "ClientConfigs"]) ].

Definition documented_names (name : string) : list string :=
  match list_find (fun p => fst p = name) model_docs with
  | Some (_, p) => snd p
  | None => []
  end.

(** Names the comment of a struct documents that the struct does not
    declare, and fields it declares that the comment leaves out. *)
Definition documented_not_declared (name : string) : list string :=
  filter (fun f => f ∉ struct_fields name) (documented_names name).

Definition declared_not_documented (name : string) : list string :=
  filter (fun f => f ∉ documented_names name) (struct_fields name).

(** The structs whose comment and declaration differ, and those among
    them whose comment names no field at all. *)
Definition drifted_structs : list string :=
  filter (fun name => documented_not_declared name ≠ []
                      ∨ declared_not_documented name ≠ [])
    (fst <$> model_docs).

Definition unnamed_structs : list string :=
  filter (fun name => documented_names name = []) (fst <$> model_docs).

(** ** Typed fields and lane order *)

#[global] Instance GoType_eq_dec : EqDecision GoType.
Proof. solve_decision. Defined.



(** ** Failure streaks of a connection *)






(** ** More sample values *)


(** A group of one record of level [warn]. *)
Definition warn_group : LogGroup.t :=
  singleton_group
    (LogData.mk 0 LevelWarn LogTypeLog 0 "disk almost full" None [] None ∅).

(** The lanes after enqueuing the groups in turn, from empty lanes. *)
Definition enqueue_each (wl : LogGroup.t -> Z) (cfg : ClientConfig.t)
    (gs : list LogGroup.t) : Lanes :=
  fold_left (fun ls g => fst (enqueue wl cfg ls g)) gs (mkLanes [] [] []).

(** * Verification *)

(** ** Levels and the retry counter *)

Ltac unfold_levels :=
  unfold more_severe, level_at_least, level_code, severity,
    LevelError, LevelWarn, LevelInfo, LevelDebug; cbn.

(** C8: the level constants give smaller byte values to more severe
    levels (error 0, warn 1, info 2, debug 3), so the more severe of two
    levels is the numerically lower one, and a test [level >= threshold]
    passes exactly for the levels of equal or lesser severity than the
    threshold; the classifier's hi-pri test is such a test. *)
Theorem level_codes_order :
  level_code LError = 0 ∧ level_code LWarn = 1 ∧
  level_code LInfo = 2 ∧ level_code LDebug = 3 ∧
  (∀ a b, more_severe a b ↔ level_code a < level_code b) ∧
  (∀ t l, level_at_least (level_code t) (level_code l) = true
          ↔ (severity l <= severity t)%nat) ∧
  (∀ wl cfg sat g,
     classify wl cfg sat g = hiPri
     ↔ level_at_least (ClientConfig.HipriLoggingLevel cfg) (wl g) = true).
Proof.
  repeat split; try reflexivity.
  - destruct a, b; unfold_levels; lia.
  - destruct a, b; unfold_levels; lia.
  - destruct t, l; unfold_levels; intros H; try lia; discriminate.
  - destruct t, l; unfold_levels; intros H; try lia; reflexivity.
  - unfold classify. destruct (level_at_least _ (wl g)); [done|].
    destruct (_ && _); discriminate.
  - unfold classify. intros ->. reflexivity.
Qed.

Lemma byte_incr_exact (x : Z) : 0 <= x < 255 → byte_incr x = x + 1.
Proof.
  intros H. unfold byte_incr, byte_wrap. apply Z.mod_small. lia.
Qed.

Lemma retry_if_below_count (p : TransportPackage.t) :
  0 <= TransportPackage.RetryCount p <= RetryCount →
  TransportPackage.RetryCount (retry_if_below p)
  = Z.min RetryCount (TransportPackage.RetryCount p + 1).
Proof.
  unfold retry_if_below, RetryCount. intros H.
  destruct (Z.ltb_spec (TransportPackage.RetryCount p) 3); cbn.
  - rewrite byte_incr_exact by lia. lia.
  - lia.
Qed.

(** C9: the retry counter is a byte, so an increment is addition modulo
    256 (255 wraps to 0); for a package whose counter is in [0..3] and
    is incremented only while strictly below [RetryCount = 3], after any
    number of such guarded increments the counter is the exact sum
    capped at 3: it has not wrapped and is still in [0..3]. *)
Theorem retry_counter_never_wraps (p : TransportPackage.t) (n : nat) :
  0 <= TransportPackage.RetryCount p <= RetryCount →
  (∀ q, TransportPackage.RetryCount (TransportPackage.incrRetryCount q)
        = (TransportPackage.RetryCount q + 1) mod 256) ∧
  byte_incr 255 = 0 ∧
  TransportPackage.RetryCount (retry_n n p)
  = Z.min 3 (TransportPackage.RetryCount p + Z.of_nat n) ∧
  0 <= TransportPackage.RetryCount (retry_n n p) <= 3.
Proof.
  intros H. split; [reflexivity|]. split; [reflexivity|].
  assert (Hn : TransportPackage.RetryCount (retry_n n p)
               = Z.min 3 (TransportPackage.RetryCount p + Z.of_nat n)).
  { induction n as [|n IH].
    - cbn. unfold RetryCount in H. lia.
    - change (retry_n (S n) p) with (retry_if_below (retry_n n p)).
      rewrite retry_if_below_count; rewrite IH; unfold RetryCount in *; lia. }
  split; [exact Hn|]. rewrite Hn. unfold RetryCount in H. lia.
Qed.

Lemma retry_counter_never_wraps_witness :
  0 <= TransportPackage.RetryCount (new_package 0 DataNil []) <= RetryCount ∧
  TransportPackage.RetryCount (retry_n 7 (new_package 0 DataNil [])) = 3.
Proof.
  split; [unfold RetryCount; cbn; lia|].
  apply (retry_counter_never_wraps (new_package 0 DataNil []) 7).
  unfold RetryCount; cbn; lia.
Defined.

(** ** The configuration record *)

(** C10: [ClientConfig] has the fields [ServerConfigGroup],
    [RequestTrackingTimout], [ProjectID] and [CredentialsFilePath],
    none of which the configuration boundary lists (with
    [ServerConfigName] they are all the fields beyond it); each is
    exported, and a holder of any [ClientConfig] reads each of its
    fields, the credentials file path included. *)
Theorem ClientConfig_extra_fields_readable :
  Forall (fun name => beyond_boundary name = true ∧ exported name = true)
    ["ServerConfigGroup"; "RequestTrackingTimout"; "ProjectID";
     "CredentialsFilePath"] ∧
  filter (fun name => beyond_boundary name = true)
    (field_names ClientConfig_fields)
  = ["ServerConfigGroup"; "ServerConfigName"; "RequestTrackingTimout";
     "ProjectID"; "CredentialsFilePath"] ∧
  ∀ c : ClientConfig.t,
    read_field ClientConfig_fields "ServerConfigGroup" c
    = Some (VString (ClientConfig.ServerConfigGroup c)) ∧
    read_field ClientConfig_fields "RequestTrackingTimout" c
    = Some (VNum (ClientConfig.RequestTrackingTimout c)) ∧
    read_field ClientConfig_fields "ProjectID" c
    = Some (VString (ClientConfig.ProjectID c)) ∧
    read_field ClientConfig_fields "CredentialsFilePath" c
    = Some (VString (ClientConfig.CredentialsFilePath c)) ∧
    Forall (fun f => read_field ClientConfig_fields (fname f) c = Some (fread f c))
      ClientConfig_fields.
Proof.
  split; [repeat constructor|].
  split; [reflexivity|].
  intros c. repeat split. repeat constructor.
Qed.




(** ** Priority Classifier *)



(** In the lanes the saturation comes from the normal lane itself: with
    [ChannelSize = 2], of three equal groups enqueued in turn the first
    two go to the normal lane and the third to the overflow lane. *)
Example third_group_overflows :
  enqueue_each first_level sample_config [warn_group; warn_group; warn_group]
  = mkLanes [warn_group; warn_group] [] [warn_group].
Proof. reflexivity. Qed.





(** ** Connection health *)





















(** ** Dispatcher: selection *)

Lemma first_eligible_Some target cs order i c :
  first_eligible target cs order = Some (i, c) →
  cs !! i = Some c ∧ eligible target c = true.
Proof.
  induction order as [|j order IH]; cbn; [discriminate|].
  destruct (cs !! j) as [c'|] eqn:Hj; [|exact IH].
  destruct (eligible target c') eqn:He; [|exact IH].
  intros [= <- <-]. split; assumption.
Qed.




Lemma select_sound target d i c :
  select target d = Some (i, c) →
  conns d !! i = Some c ∧ pool c = target ∧ health c = Healthy.
Proof.
  intros H. apply first_eligible_Some in H as [Hi He].
  unfold eligible in He. apply andb_prop in He as [H1 H2].
  apply bool_decide_eq_true in H1, H2. auto.
Qed.

(** ** Dispatcher: the retry counter *)

Lemma dispatch_step_state send cfg target d s :
  counter_in_range s →
  counter_in_range (snd (dispatch_step send cfg target (d, s))).
Proof.
  destruct s as [p|p|p e]; cbn; intros Hs; try assumption.
  destruct (select target d) as [[i c]|]; cbn.
  - destruct (send _ _ _); cbn; [assumption|].
    unfold RetryCount in *.
    destruct (Z.ltb_spec (byte_incr (TransportPackage.RetryCount p)) 3);
      cbn; unfold RetryCount; rewrite byte_incr_exact in * by lia; lia.
  - unfold RetryCount in *. lia.
Qed.

Lemma dispatch_step_sent send cfg target d s :
  counter_in_range s → sent_in_range d →
  sent_in_range (fst (dispatch_step send cfg target (d, s))).
Proof.
  unfold sent_in_range.
  destruct s as [p|p|p e]; cbn; intros Hs Hd; try assumption.
  destruct (select target d) as [[i c]|]; cbn; [|assumption].
  assert (Hsent : Forall
    (fun a => 0 <= TransportPackage.RetryCount (at_package a) < RetryCount)
    (attempts d ++ [mkAttempt i (pool c) (health c) (stamp (next_id c) p)
                      (send (length (attempts d)) c (stamp (next_id c) p))])).
  { apply Forall_app. split; [exact Hd|]. repeat constructor; cbn; lia. }
  destruct (send _ _ _); cbn; [assumption|].
  destruct (_ <? _); cbn; assumption.
Qed.

Lemma dispatch_step_counter send cfg target d s :
  counter_in_range s → sent_in_range d →
  counter_in_range (snd (dispatch_step send cfg target (d, s))) ∧
  sent_in_range (fst (dispatch_step send cfg target (d, s))).
Proof.
  intros Hs Hd. split;
    [by apply dispatch_step_state|by apply dispatch_step_sent].
Qed.

Lemma dispatch_steps_S send cfg n target st :
  dispatch_steps send cfg (S n) target st
  = dispatch_step send cfg target (dispatch_steps send cfg n target st).
Proof. reflexivity. Qed.

Lemma dispatch_steps_counter send cfg target n d s :
  counter_in_range s → sent_in_range d →
  counter_in_range (snd (dispatch_steps send cfg n target (d, s))) ∧
  sent_in_range (fst (dispatch_steps send cfg n target (d, s))).
Proof.
  intros Hs Hd. induction n as [|n IH]; [split; assumption|].
  rewrite dispatch_steps_S.
  destruct (dispatch_steps send cfg n target (d, s)) as [d' s']. cbn in IH.
  apply dispatch_step_counter; tauto.
Qed.

Lemma dispatch_counter send cfg target d type data payload :
  sent_in_range d →
  sent_in_range (fst (dispatch send cfg target d (new_package type data payload))).
Proof.
  intros Hd. unfold dispatch.
  apply dispatch_steps_counter; [|exact Hd].
  cbn. unfold RetryCount. lia.
Qed.

Lemma dispatch_batch_counter send cfg serialize l batch :
  ∀ d, sent_in_range d →
       sent_in_range (dispatch_batch send cfg serialize l d batch).
Proof.
  unfold dispatch_batch.
  induction batch as [|g batch IH]; intros d Hd; cbn [fold_left]; [exact Hd|].
  apply IH. unfold dispatch_item. by apply dispatch_counter.
Qed.

Lemma healthcheck_counter send cfg i now d :
  sent_in_range d → sent_in_range (healthcheck send cfg i now d).
Proof.
  unfold healthcheck, sent_in_range. intros Hd.
  destruct (conns d !! i) as [c|]; [|exact Hd]. cbn.
  apply Forall_app. split; [exact Hd|].
  repeat constructor; cbn; unfold RetryCount; lia.
Qed.

Lemma enqueue_all_attempts wl cfg gs :
  ∀ ls d, attempts (snd (enqueue_all wl cfg ls d gs)) = attempts d.
Proof.
  unfold enqueue_all.
  induction gs as [|g gs IH]; intros ls d; cbn [fold_left]; [reflexivity|].
  destruct (enqueue wl cfg ls g) as [ls2 [e|]]; rewrite IH; reflexivity.
Qed.

Lemma pipeline_step_counter send serialize wl window s e :
  sent_in_range (dispatcher s) →
  sent_in_range (dispatcher (pipeline_step send serialize wl window s e)).
Proof.
  intros Hs.
  assert (Hcorr : ∀ ce, sent_in_range (dispatcher (correlate wl window ce s))).
  { intros ce. unfold correlate.
    destruct (corr_step window (correlator s) ce) as [c1 flushed].
    pose proof (enqueue_all_attempts wl (config s) flushed (lanes s)
                  (dispatcher s)) as Ha.
    destruct (enqueue_all _ _ _ _ _) as [ls1 d1]. cbn in *.
    unfold sent_in_range. rewrite Ha. exact Hs. }
  destruct e; cbn [pipeline_step]; try apply Hcorr.
  - destruct (take_batch (config s) l (lanes s)) as [batch ls1]. cbn.
    by apply dispatch_batch_counter.
  - cbn. by apply healthcheck_counter.
  - cbn. exact Hs.
Qed.

(** C2: [RetryCount] is 3, and the retry counter of a package never
    exceeds it: from its creation by the Dispatcher, after any number of
    Dispatcher turns and whatever the transport answers, the counter is
    in [0..RetryCount]; and in any run of the pipeline every package
    that was sent carried a counter below [RetryCount]. *)
Theorem retry_counter_bounded send serialize wl window (s : Pipeline)
    (es : list PipelineEvent) :
  sent_in_range (dispatcher s) →
  RetryCount = 3 ∧
  sent_in_range (dispatcher (pipeline_run send serialize wl window s es)) ∧
  ∀ cfg target d type data payload n,
    0 <= TransportPackage.RetryCount
           (package_of
              (snd (dispatch_steps send cfg n target
                      (d, Pending (new_package type data payload)))))
      <= RetryCount.
Proof.
  intros Hs. split; [reflexivity|]. split.
  - revert s Hs. induction es as [|e es IH]; intros s Hs; [exact Hs|].
    unfold pipeline_run in *. cbn [fold_left].
    apply IH. by apply pipeline_step_counter.
  - intros cfg target d type data payload n.
    assert (H0 : counter_in_range (Pending (new_package type data payload)))
      by (cbn; unfold RetryCount; lia).
    assert (Hweak : ∀ st, counter_in_range st →
              0 <= TransportPackage.RetryCount (package_of st) <= RetryCount).
    { intros [p|p|p e]; cbn; lia. }
    apply Hweak.
    clear Hs Hweak. induction n as [|n IH]; [exact H0|].
    rewrite dispatch_steps_S.
    destruct (dispatch_steps send cfg n target _) as [d' s'].
    by apply dispatch_step_state.
Qed.

Lemma retry_counter_bounded_witness :
  sent_in_range (dispatcher sample_pipeline) ∧
  sent_in_range
    (dispatcher
       (pipeline_run never_delivers no_payload first_level 10 sample_pipeline
          [BatchDue normal; HealthcheckDue 0 5; BatchDue hiPri])).
Proof.
  assert (H : sent_in_range (dispatcher sample_pipeline)) by constructor.
  split; [exact H|].
  apply (retry_counter_bounded never_delivers no_payload first_level 10
           sample_pipeline
           [BatchDue normal; HealthcheckDue 0 5; BatchDue hiPri] H).
Defined.

(** ** Dispatcher: a package that is never delivered *)







(** The three sends of the sample run go round-robin over the two
    normal connections. *)
Example retries_round_robin :
  at_slot <$> attempts
    (fst (dispatch never_delivers sample_config NormalPool sample_dispatcher
            (new_package TransportPackageTypeLog DataNil [])))
  = [0; 1; 0]%nat.
Proof. reflexivity. Qed.

(** ** Dispatcher: sequence ids per stream *)

Lemma uint64_incr_exact (x : Z) : 0 <= x → x + 1 < 2 ^ 64 → uint64_incr x = x + 1.
Proof. intros H1 H2. unfold uint64_incr, uint64_wrap. apply Z.mod_small. lia. Qed.

Lemma keeps_streams_refl d : keeps_streams d d.
Proof. split; [lia|auto]. Qed.

Lemma keeps_streams_trans d1 d2 d3 :
  keeps_streams d1 d2 → keeps_streams d2 d3 → keeps_streams d1 d3.
Proof.
  intros [Hl1 Hk1] [Hl2 Hk2]. split; [lia|].
  intros Hok Hb. apply Hk2; [apply Hk1|]; [exact Hok|lia|exact Hb].
Qed.

Lemma stream_ok_same d d' :
  conns d' = conns d → attempts d' = attempts d → keeps_streams d d'.
Proof.
  intros Hc Ha. split; [rewrite Ha; lia|].
  intros Hok _ i. unfold stream_ids. rewrite Hc, Ha. apply Hok.
Qed.

Lemma stream_ok_alter f i d cur cnt :
  (∀ c, next_id (f c) = next_id c) →
  keeps_streams d (mkDispatcher (alter f i (conns d)) cur (attempts d) cnt).
Proof.
  intros Hf. split; [cbn; lia|].
  intros Hok _ j. destruct (Hok j) as [Hs Hc]. split; [exact Hs|].
  cbn [conns attempts]. intros c Hj.
  destruct (decide (i = j)) as [->|Hne].
  - rewrite list_lookup_alter_eq in Hj.
    destruct (conns d !! j) as [c0|] eqn:Hc0; [|discriminate].
    injection Hj as <-. rewrite Hf. by apply Hc.
  - rewrite list_lookup_alter_ne in Hj by done. by apply Hc.
Qed.

Lemma stream_ids_snoc j d cs cur cnt a :
  stream_ids j (mkDispatcher cs cur (attempts d ++ [a]) cnt)
  = stream_ids j d
    ++ (if decide (at_slot a = j) then [TransportPackage.ID (at_package a)] else []).
Proof.
  unfold stream_ids. cbn [attempts].
  rewrite filter_app, fmap_app. f_equal.
  rewrite filter_cons, filter_nil. by destruct (decide _).
Qed.

Lemma transmit_streams send i c p d :
  conns d !! i = Some c →
  keeps_streams d (fst (fst (transmit send i c p d))).
Proof.
  intros Hi. unfold transmit. cbn [fst].
  split; [cbn; rewrite length_app; lia|].
  cbn [attempts]. rewrite length_app. cbn [length]. intros Hok Hb j.
  destruct (Hok i) as [Hsi Hci]. destruct (Hci c Hi) as [Hn Hlt].
  destruct (Hok j) as [Hsj Hcj].
  rewrite stream_ids_snoc. cbn [at_slot at_package stamp TransportPackage.ID].
  cbn [conns attempts]. rewrite length_app. cbn [length].
  destruct (decide (i = j)) as [<-|Hne].
  - split.
    + apply StronglySorted_app. split_and!; [|exact Hsi|repeat constructor].
      intros x1 x2 H1 H2. apply list_elem_of_singleton in H2 as ->.
      by apply (proj1 (Forall_forall _ _) Hlt).
    + intros c' Hc'. rewrite list_lookup_insert_eq in Hc'
        by (by eapply lookup_lt_Some).
      injection Hc' as <-. cbn [next_id use_id].
      rewrite uint64_incr_exact by lia. split; [lia|].
      apply Forall_app. split; [|repeat constructor; lia].
      eapply Forall_impl; [exact Hlt|]. cbn. intros; lia.
  - rewrite app_nil_r. split; [exact Hsj|].
    intros c' Hc'. rewrite list_lookup_insert_ne in Hc' by done.
    destruct (Hcj c' Hc') as [Hn' Hlt']. split; [lia|exact Hlt'].
Qed.

Lemma on_failure_next_id cfg c : next_id (on_failure cfg c) = next_id c.
Proof.
  unfold on_failure. destruct (health c); cbn; try reflexivity;
    destruct (_ <=? _); reflexivity.
Qed.

Lemma conn_step_next_id cfg c e : next_id (conn_step cfg c e) = next_id c.
Proof.
  destruct e; cbn; unfold on_success, on_reset;
    rewrite ?on_failure_next_id; cbn;
    destruct (health c); cbn; try reflexivity;
    destruct (reopened c); reflexivity.
Qed.

Lemma dispatch_step_streams send cfg target d s :
  keeps_streams d (fst (dispatch_step send cfg target (d, s))).
Proof.
  destruct s as [p|p|p e]; cbn [dispatch_step fst];
    try apply keeps_streams_refl.
  destruct (select target d) as [[i c]|] eqn:Hsel.
  - destruct (select_sound target d i c Hsel) as (Hi & _ & _).
    pose proof (transmit_streams send i c p d Hi) as Ht.
    destruct (transmit send i c p d) as [[d1 p1] ok]. cbn [fst] in Ht.
    destruct ok; [exact Ht|].
    destruct (_ <? _); [exact Ht|]. cbn [fst].
    eapply keeps_streams_trans; [exact Ht|].
    eapply keeps_streams_trans;
      [apply (stream_ok_alter (on_failure cfg) i d1 (cursor d1) (counted d1));
       apply on_failure_next_id|].
    by apply stream_ok_same.
  - by apply stream_ok_same.
Qed.

Lemma dispatch_steps_streams send cfg target n d s :
  keeps_streams d (fst (dispatch_steps send cfg n target (d, s))).
Proof.
  induction n as [|n IH]; [apply keeps_streams_refl|].
  rewrite dispatch_steps_S.
  destruct (dispatch_steps send cfg n target (d, s)) as [d' s'].
  eapply keeps_streams_trans; [exact IH|]. apply dispatch_step_streams.
Qed.

Lemma dispatch_batch_streams send cfg serialize l batch :
  ∀ d, keeps_streams d (dispatch_batch send cfg serialize l d batch).
Proof.
  unfold dispatch_batch.
  induction batch as [|g batch IH]; intros d; cbn [fold_left];
    [apply keeps_streams_refl|].
  eapply keeps_streams_trans; [|apply IH].
  unfold dispatch_item, dispatch. apply dispatch_steps_streams.
Qed.

Lemma healthcheck_streams send cfg i now d :
  keeps_streams d (healthcheck send cfg i now d).
Proof.
  unfold healthcheck.
  destruct (conns d !! i) as [c|] eqn:Hi; [|apply keeps_streams_refl].
  pose proof (transmit_streams send i c
                (new_package TransportPackageTypeHealhcheck DataNil []) d Hi)
    as Ht.
  destruct (transmit send i c _ d) as [[d1 p1] ok]. cbn [fst] in Ht.
  eapply keeps_streams_trans; [exact Ht|].
  eapply keeps_streams_trans;
    [apply (stream_ok_alter
              (fun c1 => conn_step cfg c1
                 (if ok then HealthcheckOk now else HealthcheckFailed now))
              i d1 (cursor d) (counted d1));
     intros; apply conn_step_next_id|].
  apply keeps_streams_refl.
Qed.

Lemma enqueue_all_conns wl cfg gs :
  ∀ ls d, conns (snd (enqueue_all wl cfg ls d gs)) = conns d.
Proof.
  unfold enqueue_all.
  induction gs as [|g gs IH]; intros ls d; cbn [fold_left]; [reflexivity|].
  destruct (enqueue wl cfg ls g) as [ls2 [e|]]; rewrite IH; reflexivity.
Qed.

Lemma pipeline_step_streams send serialize wl window s e :
  keeps_streams (dispatcher s)
    (dispatcher (pipeline_step send serialize wl window s e)).
Proof.
  assert (Hcorr : ∀ ce,
            keeps_streams (dispatcher s) (dispatcher (correlate wl window ce s))).
  { intros ce. unfold correlate.
    destruct (corr_step window (correlator s) ce) as [c1 flushed].
    pose proof (enqueue_all_attempts wl (config s) flushed (lanes s)
                  (dispatcher s)) as Ha.
    pose proof (enqueue_all_conns wl (config s) flushed (lanes s)
                  (dispatcher s)) as Hc.
    destruct (enqueue_all _ _ _ _ _) as [ls1 d1]. cbn in *.
    by apply stream_ok_same. }
  destruct e; cbn [pipeline_step]; try apply Hcorr.
  - destruct (take_batch (config s) l (lanes s)) as [batch ls1]. cbn.
    apply dispatch_batch_streams.
  - cbn. apply healthcheck_streams.
  - cbn. unfold reset_connection, update_conn.
    apply stream_ok_alter. intros; apply conn_step_next_id.
Qed.

Lemma pipeline_run_streams send serialize wl window es :
  ∀ s, keeps_streams (dispatcher s)
         (dispatcher (pipeline_run send serialize wl window s es)).
Proof.
  induction es as [|e es IH]; intros s; [apply keeps_streams_refl|].
  unfold pipeline_run in *. cbn [fold_left].
  eapply keeps_streams_trans; [apply pipeline_step_streams|apply IH].
Qed.

Lemma fresh_stream_ok d : fresh d → stream_ok d.
Proof.
  intros [Ha Hc] i. unfold stream_ids, strictly_increasing. rewrite Ha. cbn.
  split; [constructor|]. intros c Hi.
  apply list_elem_of_lookup_2 in Hi.
  rewrite (proj1 (Forall_forall _ _) Hc c Hi). split; [lia|constructor].
Qed.

(** Ids picked out of an increasing stream by a narrower test are
    increasing too. *)
Lemma increasing_narrow (f : Attempt → Z) (P Q : Attempt → Prop)
    `{∀ a, Decision (P a)} `{∀ a, Decision (Q a)} (l : list Attempt) :
  (∀ a, Q a → P a) →
  StronglySorted Z.lt (f <$> filter P l) →
  StronglySorted Z.lt (f <$> filter Q l).
Proof.
  intros HQP. induction l as [|a l IH]; [done|].
  rewrite !filter_cons.
  destruct (decide (Q a)) as [Hq|Hq].
  - destruct (decide (P a)) as [Hp|Hp]; [|by destruct Hp; auto].
    cbn. rewrite !StronglySorted_cons. intros [Hall Hs]. split; [|auto].
    rewrite Forall_forall in *. intros x Hx. apply Hall.
    apply list_elem_of_fmap in Hx as (b & -> & Hb).
    apply list_elem_of_fmap. exists b. split; [done|].
    apply list_elem_of_filter in Hb as [Hb1 Hb2].
    apply list_elem_of_filter. auto.
  - destruct (decide (P a)); [|exact IH].
    cbn. rewrite StronglySorted_cons. intros [_ Hs]. auto.
Qed.

Example sample_run_ids :
  all_ids (dispatcher
             (pipeline_run always_delivers no_payload first_level 10
                sample_pipeline sample_run))
  = [0; 0; 1; 2; 0].
Proof. vm_compute. reflexivity. Qed.

Example sample_run_slots :
  at_slot <$> attempts
    (dispatcher
       (pipeline_run always_delivers no_payload first_level 10
          sample_pipeline sample_run))
  = [0; 1; 0; 0; 2]%nat.
Proof. vm_compute. reflexivity. Qed.

(** C7: in any run of a pipeline that starts with nothing sent and
    streams at id 0, and makes fewer than [2^64] sends, the ids of the
    packages the Dispatcher sent on one connection's stream are strictly
    increasing, as are the ids of all packages on that stream; taken
    over all streams together the ids are not increasing, as the sample
    run shows. *)
Theorem stream_ids_increasing send serialize wl window (s : Pipeline)
    (es : list PipelineEvent) :
  fresh (dispatcher s) →
  Z.of_nat (length (attempts
     (dispatcher (pipeline_run send serialize wl window s es)))) < 2 ^ 64 →
  (∀ i,
     strictly_increasing
       (dispatcher_ids i
          (dispatcher (pipeline_run send serialize wl window s es))) ∧
     strictly_increasing
       (stream_ids i
          (dispatcher (pipeline_run send serialize wl window s es)))) ∧
  ¬ strictly_increasing
      (all_ids (dispatcher
                  (pipeline_run always_delivers no_payload first_level 10
                     sample_pipeline sample_run))).
Proof.
  intros Hfresh Hbound. split.
  - intros i.
    destruct (pipeline_run_streams send serialize wl window es s) as [_ Hk].
    destruct (Hk (fresh_stream_ok _ Hfresh) Hbound i) as [Hs _].
    split; [|exact Hs].
    unfold dispatcher_ids, strictly_increasing.
    eapply (increasing_narrow _ (fun a => at_slot a = i)); [|exact Hs].
    by intros a [? _].
  - rewrite sample_run_ids. unfold strictly_increasing.
    rewrite StronglySorted_cons. intros [Hall _].
    apply Forall_cons in Hall as [H0 _]. lia.
Qed.

Lemma stream_ids_increasing_witness :
  fresh (dispatcher sample_pipeline) ∧
  strictly_increasing
    (dispatcher_ids 0
       (dispatcher
          (pipeline_run never_delivers no_payload first_level 10
             sample_pipeline sample_run))).
Proof.
  assert (Hf : fresh (dispatcher sample_pipeline))
    by (split; [reflexivity|repeat constructor]).
  split; [exact Hf|].
  assert (Hb : Z.of_nat (length (attempts
     (dispatcher (pipeline_run never_delivers no_payload first_level 10
                    sample_pipeline sample_run)))) < 2 ^ 64)
    by (apply Z.ltb_lt; vm_compute; reflexivity).
  exact (proj1 (proj1 (stream_ids_increasing never_delivers no_payload
                         first_level 10 sample_pipeline sample_run Hf Hb) 0%nat)).
Defined.

(** With nothing delivered, the stream of slot 0 carries the ids of the
    Dispatcher's two sends on it, the healthcheck's id left out; after
    the first package is dropped the connection is Suspect and is not
    selected again. *)
Example sample_run_stream_0 :
  dispatcher_ids 0
    (dispatcher
       (pipeline_run never_delivers no_payload first_level 10
          sample_pipeline sample_run))
  = [0; 1].
Proof. vm_compute. reflexivity. Qed.

(** ** Correlator *)


Lemma submitted_app k es1 es2 :
  submitted k (es1 ++ es2) = submitted k es1 ++ submitted k es2.
Proof.
  induction es1 as [|[now r|k'|now] es1 IH]; cbn; try exact IH; [reflexivity|].
  destruct (bool_decide _); cbn; by rewrite IH.
Qed.













(** In the sample run the ungrouped record is flushed at once, the group
    of ["other"] on its close signal, and the group of ["k"] by the last
    sweep, with its three records. *)
Example sample_submissions_flushed :
  (fun g => length (LogGroup.Logs g))
    <$> snd (corr_run 10 empty_correlator sample_submissions)
  = [1; 1; 3]%nat.
Proof. vm_compute. reflexivity. Qed.

(** * More of the package *)(** * More of the package *)

(** ** Constant families *)

(** X1: within each family of byte constants (levels, package types,
    log types, delivery methods) the constants are pairwise distinct and
    are exactly the values [0 .. n-1], so a byte names at most one
    member of a family; and the zero byte, the value of a field that
    was never set, names [LevelError], [TransportPackageTypeLog],
    [LogTypeLog] and [DeliveryMethodClientSpecified], and no other
    member. *)
Theorem constant_families_distinct :
  (∀ a b, level_code a = level_code b ↔ a = b) ∧
  (∀ z, (∃ a, level_code a = z) ↔ 0 <= z < 4) ∧
  (∀ a, level_code a = 0 ↔ a = LError) ∧
  (∀ a b, package_type_code a = package_type_code b ↔ a = b) ∧
  (∀ z, (∃ a, package_type_code a = z) ↔ 0 <= z < 3) ∧
  (∀ a, package_type_code a = 0 ↔ a = PkgLog) ∧
  (∀ a b, log_type_code a = log_type_code b ↔ a = b) ∧
  (∀ z, (∃ a, log_type_code a = z) ↔ 0 <= z < 2) ∧
  (∀ a, log_type_code a = 0 ↔ a = TyLog) ∧
  (∀ a b, delivery_method_code a = delivery_method_code b ↔ a = b) ∧
  (∀ z, (∃ a, delivery_method_code a = z) ↔ 0 <= z < 2) ∧
  (∀ a, delivery_method_code a = 0 ↔ a = ClientSpecified) ∧
  level_code LError = LevelError ∧
  package_type_code PkgLog = TransportPackageTypeLog ∧
  log_type_code TyLog = LogTypeLog ∧
  delivery_method_code ClientSpecified = DeliveryMethodClientSpecified ∧
  LoggedData.Type_ LoggedData.zero = LogTypeLog.
Proof.
  split_and!; try reflexivity.
  - intros [] []; cbn; split; intros H; try reflexivity; discriminate H.
  - intros z. split.
    + intros [[] <-]; cbn; unfold_levels; lia.
    + intros Hz.
      assert (z = 0 ∨ z = 1 ∨ z = 2 ∨ z = 3) as [-> | [-> | [-> | ->]]] by lia;
        [by exists LError|by exists LWarn|by exists LInfo|by exists LDebug].
  - intros []; cbn; split; intros H; try reflexivity; discriminate H.
  - intros [] []; cbn; split; intros H; try reflexivity; discriminate H.
  - intros z. split.
    + intros [[] <-]; cbn;
        unfold TransportPackageTypeLog, TransportPackageTypeHiPriLog,
          TransportPackageTypeHealhcheck; lia.
    + intros Hz.
      assert (z = 0 ∨ z = 1 ∨ z = 2) as [-> | [-> | ->]] by lia;
        [by exists PkgLog|by exists PkgHiPriLog|by exists PkgHealthcheck].
  - intros []; cbn; split; intros H; try reflexivity; discriminate H.
  - intros [] []; cbn; split; intros H; try reflexivity; discriminate H.
  - intros z. split.
    + intros [[] <-]; cbn; unfold LogTypeLog, LogTypeAudit; lia.
    + intros Hz. assert (z = 0 ∨ z = 1) as [-> | ->] by lia;
        [by exists TyLog|by exists TyAudit].
  - intros []; cbn; split; intros H; try reflexivity; discriminate H.
  - intros [] []; cbn; split; intros H; try reflexivity; discriminate H.
  - intros z. split.
    + intros [[] <-]; cbn;
        unfold DeliveryMethodClientSpecified, DeliveryMethodRoundRobin; lia.
    + intros Hz. assert (z = 0 ∨ z = 1) as [-> | ->] by lia;
        [by exists ClientSpecified|by exists RoundRobin].
  - intros []; cbn; split; intros H; try reflexivity; discriminate H.
Qed.

(** ** JSON keys *)

Lemma fmap_NoDup_inj {A B : Type} (f : A → B) (l : list A) (x y : A) :
  NoDup (f <$> l) → x ∈ l → y ∈ l → f x = f y → x = y.
Proof.
  induction l as [|a l IH]; intros Hnd Hx Hy Hf.
  - by apply elem_of_nil in Hx.
  - cbn in Hnd. apply NoDup_cons in Hnd as [Ha Hnd].
    apply elem_of_cons in Hx as [->|Hx]; apply elem_of_cons in Hy as [->|Hy].
    + reflexivity.
    + exfalso. apply Ha. rewrite Hf. apply list_elem_of_fmap. eauto.
    + exfalso. apply Ha. rewrite <- Hf. apply list_elem_of_fmap. eauto.
    + by apply IH.
Qed.

(** A key that matches the key of a tag up to case is stored in that
    tag's field, when no two keys of the struct agree up to case. *)
Lemma json_field_up_to_case (tags : list JsonTag) (t : JsonTag) (key : string) :
  NoDup ((fun t => fold_case (tag_key t)) <$> tags) →
  t ∈ tags → fold_case key = fold_case (tag_key t) →
  json_field tags key = Some (tag_field t).
Proof.
  intros Hnd Ht Hkey. unfold json_field.
  destruct (list_find (fun t => tag_key t = key) tags) as [[i t2]|] eqn:Hex.
  - apply list_find_Some in Hex as (Hi & Hk & _).
    apply list_elem_of_lookup_2 in Hi.
    rewrite (fmap_NoDup_inj _ tags t2 t Hnd Hi Ht); [reflexivity|].
    cbn. by rewrite Hk, Hkey.
  - destruct (list_find (fun t => fold_case (tag_key t) = fold_case key) tags)
      as [[i t2]|] eqn:Hfold; cbn.
    + apply list_find_Some in Hfold as (Hi & Hk & _).
      apply list_elem_of_lookup_2 in Hi.
      rewrite (fmap_NoDup_inj _ tags t2 t Hnd Hi Ht); [reflexivity|].
      cbn. by rewrite Hk, Hkey.
    + apply list_find_None in Hfold. rewrite Forall_forall in Hfold.
      exfalso. by apply (Hfold t Ht).
Qed.

Lemma json_key_of_field (tags : list JsonTag) (t : JsonTag) :
  NoDup (tag_field <$> tags) → t ∈ tags →
  json_key tags (tag_field t) = Some (tag_key t).
Proof.
  intros Hnd Ht. unfold json_key.
  destruct (list_find (fun t0 => tag_field t0 = tag_field t) tags)
    as [[i t2]|] eqn:Hfind; cbn.
  - apply list_find_Some in Hfind as (Hi & Hk & _).
    apply list_elem_of_lookup_2 in Hi.
    by rewrite (fmap_NoDup_inj _ tags t2 t Hnd Hi Ht).
  - apply list_find_None in Hfind. rewrite Forall_forall in Hfind.
    exfalso. by apply (Hfind t Ht).
Qed.

Lemma ClientConfig_keys_distinct :
  NoDup ((fun t => fold_case (tag_key t)) <$> ClientConfig_json) ∧
  NoDup (tag_field <$> ClientConfig_json).
Proof.
  split; apply (bool_decide_unpack _); vm_compute; reflexivity.
Qed.

Lemma ClientConfig_key_names :
  Forall (fun t =>
            tag_omitempty t = false ∧
            (tag_key t = lower_first (tag_field t)
             ∨ tag_key t = tag_field t
               ∧ tag_field t ∈ ["ProjectID"; "CredentialsFilePath"]))
    ClientConfig_json.
Proof. apply (bool_decide_unpack _). vm_compute. reflexivity. Qed.

(** X2: the JSON tags of [ClientConfig] cover its fields one for one;
    the key of a field is its name with the first letter in lower case,
    except [ProjectID] and [CredentialsFilePath], whose keys are the
    names unchanged; no tag has [omitempty], so all 25 keys are always
    written; and no two keys agree up to case, so an incoming key that
    matches a field's key up to case is stored in that field and no
    other. *)
Theorem ClientConfig_json_keys (t : JsonTag) (key : string) :
  t ∈ ClientConfig_json →
  fold_case key = fold_case (tag_key t) →
  json_field ClientConfig_json key = Some (tag_field t) ∧
  json_key ClientConfig_json (tag_field t) = Some (tag_key t) ∧
  tag_omitempty t = false ∧
  (tag_key t = lower_first (tag_field t)
   ∨ tag_key t = tag_field t
     ∧ tag_field t ∈ ["ProjectID"; "CredentialsFilePath"]) ∧
  tag_field <$> ClientConfig_json = field_names ClientConfig_fields ∧
  (∀ empty, json_object_keys ClientConfig_json empty
            = tag_key <$> ClientConfig_json).
Proof.
  intros Ht Hkey. destruct ClientConfig_keys_distinct as [Hk Hf].
  pose proof (proj1 (Forall_forall _ _) ClientConfig_key_names t Ht)
    as [Hom Hname].
  split_and!; try assumption.
  - by apply json_field_up_to_case.
  - by apply json_key_of_field.
  - reflexivity.
  - intros empty. reflexivity.
Qed.

Lemma ClientConfig_json_keys_witness :
  mkJsonTag "AppName" "appName" false ∈ ClientConfig_json ∧
  json_field ClientConfig_json "APPNAME" = Some "AppName".
Proof.
  assert (Ht : mkJsonTag "AppName" "appName" false ∈ ClientConfig_json)
    by (apply (bool_decide_unpack _); vm_compute; reflexivity).
  split; [exact Ht|].
  exact (proj1 (ClientConfig_json_keys (mkJsonTag "AppName" "appName" false)
                  "APPNAME" Ht eq_refl)).
Defined.

Lemma LoggedData_keys_cases (d : LoggedData.t) :
  json_object_keys LoggedData_json (LoggedData_empty d)
  = (if LoggedData.Type_ d =? 0 then [] else ["Type"])
    ++ (if LoggedData.Weight d =? 0 then [] else ["Weight"])
    ++ (if bool_decide (LoggedData.Message d = "") then [] else ["Message"])
    ++ (if bool_decide (LoggedData.Error d = None) then [] else ["Error"])
    ++ (if no_entries (LoggedData.Context d) then [] else ["Context"]).
Proof.
  unfold json_object_keys, LoggedData_json.
  rewrite !filter_cons, filter_nil. unfold written, LoggedData_empty. cbn.
  destruct (LoggedData.Type_ d =? 0), (LoggedData.Weight d =? 0),
    (bool_decide (LoggedData.Message d = "")),
    (bool_decide (LoggedData.Error d = None)),
    (no_entries (LoggedData.Context d)); reflexivity.
Qed.

Lemma no_entries_false (m : option (gmap string Any)) :
  no_entries m = false ↔ ∃ m', m = Some m' ∧ m' ≠ ∅.
Proof.
  destruct m as [m|]; cbn.
  - rewrite bool_decide_eq_false, dom_empty_iff_L.
    split; [intros H; by exists m|intros (m' & [= <-] & H); done].
  - split; [discriminate|intros (m' & H & _); discriminate H].
Qed.

Lemma no_entries_true (m : option (gmap string Any)) :
  no_entries m = true ↔ m = None ∨ m = Some ∅.
Proof.
  destruct m as [m|]; cbn.
  - rewrite bool_decide_eq_true, dom_empty_iff_L.
    split; [intros ->; by right|intros [H|[= ->]]; done].
  - split; [by left|done].
Qed.

Lemma elem_of_optional_key (b : bool) (k x : string) :
  x ∈ (if b then [] else [k]) ↔ b = false ∧ x = k.
Proof.
  destruct b.
  - rewrite elem_of_nil. split; [intros []|intros [H _]; discriminate H].
  - rewrite list_elem_of_singleton. split; [intros ->; done|intros [_ ->]; done].
Qed.

Lemma optional_key_nil (b : bool) (k : string) :
  (if b then [] else [k]) = [] ↔ b = true.
Proof.
  destruct b; split; intros H; try reflexivity; discriminate H.
Qed.

Lemma optional_key_sublist (b : bool) (k : string) (l1 l2 : list string) :
  l1 `sublist_of` l2 → (if b then [] else [k]) ++ l1 `sublist_of` k :: l2.
Proof. intros H. destruct b; cbn; by constructor. Qed.

(** X3: every field of [LoggedData] is tagged [omitempty], so the JSON
    object of a value holds a key exactly for the fields that are not
    empty, in field order.  As [LogTypeLog] is the zero byte, the [Type]
    key is written exactly when the type is not [LogTypeLog]; [Weight]
    exactly when it is not 0; [Message] and [Error] exactly when not
    empty; [Context] exactly when the map has an entry.  The object is
    empty for the zero value and for one other value only, the one
    whose [Context] is an empty map that is not nil. *)
Theorem LoggedData_written_keys (d : LoggedData.t) :
  let keys := json_object_keys LoggedData_json (LoggedData_empty d) in
  ("Type" ∈ keys ↔ LoggedData.Type_ d ≠ LogTypeLog) ∧
  ("Weight" ∈ keys ↔ LoggedData.Weight d ≠ 0) ∧
  ("Message" ∈ keys ↔ LoggedData.Message d ≠ "") ∧
  ("Error" ∈ keys ↔ LoggedData.Error d ≠ None) ∧
  ("Context" ∈ keys ↔ ∃ m, LoggedData.Context d = Some m ∧ m ≠ ∅) ∧
  keys `sublist_of` (tag_key <$> LoggedData_json) ∧
  (keys = [] ↔ d = LoggedData.zero ∨ d = LoggedData.empty_context) ∧
  LoggedData.zero ≠ LoggedData.empty_context.
Proof.
  cbn zeta. rewrite LoggedData_keys_cases. unfold LogTypeLog.
  rewrite <- (no_entries_false (LoggedData.Context d)).
  rewrite <- (Z.eqb_neq (LoggedData.Type_ d)), <- (Z.eqb_neq (LoggedData.Weight d)).
  rewrite <- (bool_decide_eq_false (LoggedData.Message d = "")),
    <- (bool_decide_eq_false (LoggedData.Error d = None)).
  split_and!.
  1-5: rewrite !elem_of_app, !elem_of_optional_key;
    intuition (try discriminate; auto).
  - cbn [fmap list_fmap LoggedData_json tag_key].
    do 4 apply optional_key_sublist.
    destruct (no_entries _); repeat constructor.
  - split.
    + intros H.
      apply app_eq_nil in H as [H1 H]. apply app_eq_nil in H as [H2 H].
      apply app_eq_nil in H as [H3 H]. apply app_eq_nil in H as [H4 H5].
      apply optional_key_nil in H1, H2, H3, H4, H5.
      apply Z.eqb_eq in H1, H2. apply bool_decide_eq_true in H3, H4.
      apply no_entries_true in H5.
      destruct d as [ty w m e c]. cbn in *. subst.
      destruct H5 as [-> | ->]; [by left|by right].
    + intros [-> | ->]; vm_compute; reflexivity.
  - discriminate.
Qed.

(** ** Field names *)

Lemma model_structs_nonempty :
  Forall (fun p => snd p ≠ []) model_structs.
Proof. repeat constructor; discriminate. Qed.

(** X4: every field of every struct of the package is exported, so
    there is no field another package cannot read or set; the struct
    names are distinct and looking up a name that is not a struct of
    the package gives no fields; the table agrees with the field lists
    of [ClientConfig], [ServerLoggingConfigs] and [LoggedData]; and the
    constant [CorrelationIDField] names a field of [CorrelationData] and
    of no other struct. *)
Theorem model_fields_exported :
  Forall (fun p => Forall (fun f => exported f = true) (snd p) ∧ NoDup (snd p))
    model_structs ∧
  NoDup (fst <$> model_structs) ∧
  (∀ name, struct_fields name = [] ↔ name ∉ fst <$> model_structs) ∧
  struct_fields "ClientConfig" = field_names ClientConfig_fields ∧
  struct_fields "ServerLoggingConfigs"
  = field_names ServerLoggingConfigs_fields ∧
  struct_fields "LoggedData" = tag_field <$> LoggedData_json ∧
  structs_with_field CorrelationIDField = ["CorrelationData"].
Proof.
  split_and!; try reflexivity.
  - apply (bool_decide_unpack _). vm_compute. reflexivity.
  - apply (bool_decide_unpack _). vm_compute. reflexivity.
  - intros name. unfold struct_fields.
    destruct (list_find (fun p => fst p = name) model_structs)
      as [[i p]|] eqn:Hfind.
    + apply list_find_Some in Hfind as (Hi & Hp & _).
      apply list_elem_of_lookup_2 in Hi.
      pose proof (proj1 (Forall_forall _ _) model_structs_nonempty p Hi) as Hne.
      split; [intros H; contradiction|].
      intros Hnot. exfalso. apply Hnot. rewrite <- Hp.
      apply list_elem_of_fmap. eauto.
    + apply list_find_None in Hfind. rewrite Forall_forall in Hfind.
      split; [|reflexivity]. intros _ Hin.
      apply list_elem_of_fmap in Hin as (p & -> & Hp).
      by apply (Hfind p Hp).
Qed.

(** ** Doc comments against declarations *)

(** X5: of the fifteen structs of the package, all with a doc comment,
    eight have a comment that does not match the declaration.  Four
    comments name no field at all ([CorrelationData], [LoggedData],
    [ServerLoggingConfigs], [ServerLoggingConfig]).  Four name fields
    but not the declared ones: [ClientConfig] documents
    [UserRequestTimout], which is no field, and leaves out
    [ServerConfigGroup], [RequestTrackingTimout], [ProjectID] and
    [CredentialsFilePath]; [LogData] documents [Context] and [Linked]
    and leaves out [CorrelationData] and [ContextMaps];
    [OpenConnectionDataRequest] documents [ConfigName] and
    [CommonLabels] and leaves out [ClientConfigs];
    [GetConnectionResponse] leaves out [LastReceivedTime].  The comments
    of the other seven structs name exactly the declared fields, in
    order. *)
Theorem doc_comments_against_fields :
  fst <$> model_docs = fst <$> model_structs ∧
  drifted_structs
  = ["CorrelationData"; "LogData"; "LoggedData"; "ClientConfig";
     "ServerLoggingConfigs"; "ServerLoggingConfig";
     "OpenConnectionDataRequest"; "GetConnectionResponse"] ∧
  unnamed_structs
  = ["CorrelationData"; "LoggedData"; "ServerLoggingConfigs";
     "ServerLoggingConfig"] ∧
  Forall (fun name => documented_not_declared name = []
                      ∧ declared_not_documented name = struct_fields name)
    unnamed_structs ∧
  documented_not_declared "ClientConfig" = ["UserRequestTimout"] ∧
  declared_not_documented "ClientConfig"
  = ["ServerConfigGroup"; "RequestTrackingTimout"; "ProjectID";
     "CredentialsFilePath"] ∧
  documented_not_declared "LogData" = ["Context"; "Linked"] ∧
  declared_not_documented "LogData" = ["CorrelationData"; "ContextMaps"] ∧
  documented_not_declared "OpenConnectionDataRequest"
  = ["ConfigName"; "CommonLabels"] ∧
  declared_not_documented "OpenConnectionDataRequest" = ["ClientConfigs"] ∧
  documented_not_declared "GetConnectionResponse" = [] ∧
  declared_not_documented "GetConnectionResponse" = ["LastReceivedTime"] ∧
  Forall (fun name =>
            name ∈ drifted_structs
            ↔ documented_names name ≠ struct_fields name)
    (fst <$> model_docs) ∧
  filter (fun name => name ∉ drifted_structs) (fst <$> model_docs)
  = ["TransportPackage"; "LogGroup"; "ServerConfigs";
     "OpenConnectionDataResponse"; "ListConnectionResponse";
     "PostConnectionRequest"; "PostConnectionResponse"].
Proof.
  split_and!; try (vm_compute; reflexivity).
  - apply (bool_decide_unpack _). vm_compute. reflexivity.
  - apply (bool_decide_unpack _). vm_compute. reflexivity.
Qed.
